(** * Dependency-tree relationship extraction and pattern matching

    A shallow embedding of [template_extraction.py]: the [Relationship]
    class (lowest common ancestor of two tokens and the two branches below
    it), its [matching_pattern], and the pattern matcher
    ([match_node_pattern], [search_sentence_for_node], [follow_branch],
    [search_sentence_for_pattern]).

    The parsed document is the parser's token array: every token carries its
    string annotations and the index of its syntactic head.  The accessors
    the program reads from a token ([ancestors], [children], the annotation
    attributes) are functions of that array. *)

From Stdlib Require Import Ascii.
From stdpp Require Import base strings numbers option list.

(** ** The parsed document *)

(** The string annotations of a token that a pattern dictionary can name;
    the program reads attribute [a] of a node as [getattr(node, a + "_")]. *)
Inductive attribute := orth | lemma | pos | dep.

Global Instance attribute_eq_dec : EqDecision attribute.
Proof. solve_decision. Defined.

(** One entry of the token array.  [head] is the index of the syntactic
    parent; the root of a sentence has none. *)
Record TokenC := mkTokenC {
  orth_ : string;
  lemma_ : string;
  pos_ : string;
  dep_ : string;
  head : option nat
}.

Definition Doc := list TokenC.

(** A token is addressed by its index in the document; two tokens are equal
    when their indices are. *)
Definition Token := nat.

Definition getattr (doc : Doc) (node : Token) (a : attribute) : string :=
  match doc !! node with
  | Some t =>
      match a with
      | orth => orth_ t
      | lemma => lemma_ t
      | pos => pos_ t
      | dep => dep_ t
      end
  | None => EmptyString
  end.

Definition parent (doc : Doc) (node : Token) : option Token :=
  doc !! node ≫= head.

(** [token.ancestors]: the heads above the token, nearest first.  The parser
    library bounds the walk by the number of tokens of the document. *)
Fixpoint ancestors_from (fuel : nat) (doc : Doc) (node : Token) : list Token :=
  match fuel with
  | 0 => []
  | S fuel' =>
      match parent doc node with
      | Some p => p :: ancestors_from fuel' doc p
      | None => []
      end
  end.

Definition ancestors (doc : Doc) (node : Token) : list Token :=
  ancestors_from (length doc) doc node.

(** [token.children]: the tokens whose head is this token, in document
    order. *)
Definition children (doc : Doc) (node : Token) : list Token :=
  filter (λ child, parent doc child = Some node) (seq 0 (length doc)).

(** [[token] + list(token.ancestors)]: self first, root last. *)
Definition chain (doc : Doc) (node : Token) : list Token :=
  node :: ancestors doc node.

(** ** Patterns *)

(** A node pattern is a dictionary from attribute names to values, kept in
    insertion order. *)
Definition node_pattern := list (attribute * string).

Record pattern := mkPattern {
  common_ancestor : node_pattern;
  branch1 : list node_pattern;
  branch2 : list node_pattern
}.

(** ** Exceptions of [find_relationship] *)

Inductive exn :=
| ValueError_unrelated      (* The two tokens ... are unrelated! *)
| ValueError_ambiguity      (* There is ambiguity about the chain before it forks *)
| ValueError_not_in_list    (* chain2.index(x) with x absent *)
| IndexError.               (* chain1[i1] out of range *)

Global Instance exn_eq_dec : EqDecision exn.
Proof. solve_decision. Defined.

(** ** The Relationship class *)

Module Relationship.

Record t := mk {
  token1 : Token;
  token2 : Token;
  common_ancestors : list Token;
  branch1 : list Token;
  branch2 : list Token
}.

(** The body of [find_relationship] once both chains are built.  [i1] is
    bound only when the loop breaks; reading it unbound raises a
    [NameError], which the [except] clause turns into the
    unrelated-tokens [ValueError]. *)
Definition fork_chains (chain1 chain2 : list Token)
  : exn + (list Token * list Token * list Token) :=
  let i1 := fst <$> list_find (λ token, token ∈ chain2) chain1 in
  match i1 with
  | None => inl ValueError_unrelated
  | Some i1 =>
      match chain1 !! i1 with
      | None => inl IndexError
      | Some x =>
          match list_find (λ y, y = x) chain2 with
          | None => inl ValueError_not_in_list
          | Some (i2, _) =>
              let branch1 := reverse (take i1 chain1) in
              let branch2 := reverse (take i2 chain2) in
              if decide (drop i1 chain1 ≠ drop i2 chain2)
              then inl ValueError_ambiguity
              else inr (reverse (drop i1 chain1), branch1, branch2)
          end
      end
  end.

Definition find_relationship (doc : Doc) (token1 token2 : Token)
  : exn + (list Token * list Token * list Token) :=
  let chain1 := [token1] ++ ancestors doc token1 in
  let chain2 := [token2] ++ ancestors doc token2 in
  fork_chains chain1 chain2.

(** [Relationship(token1, token2)] *)
Definition init (doc : Doc) (token1 token2 : Token) : exn + t :=
  match find_relationship doc token1 token2 with
  | inl e => inl e
  | inr (common_ancestors, branch1, branch2) =>
      inr (mk token1 token2 common_ancestors branch1 branch2)
  end.

(** [self.common_ancestors[-1]] *)
Definition forking_node (self : t) : option Token :=
  last (common_ancestors self).

Definition matching_pattern (doc : Doc) (self : t) : option pattern :=
  fork ← forking_node self;
  Some (mkPattern
          [(pos, getattr doc fork pos); (lemma, getattr doc fork lemma)]
          (map (λ node, [(pos, getattr doc node pos); (dep, getattr doc node dep)])
               (branch1 self))
          (map (λ node, [(pos, getattr doc node pos); (dep, getattr doc node dep)])
               (branch1 self))).

Definition longer_branch (self : t) : list Token :=
  if decide (length (branch2 self) ≤ length (branch1 self))
  then branch1 self else branch2 self.

Definition shorter_branch (self : t) : list Token :=
  if decide (length (branch2 self) ≤ length (branch1 self))
  then branch2 self else branch1 self.

End Relationship.

(** ** The pattern matcher *)

Definition match_node_pattern (doc : Doc) (node : Token) (pattern : node_pattern) : bool :=
  forallb (λ '(attribute, value), bool_decide (getattr doc node attribute = value))
          pattern.

(** The recursion of [search_sentence_for_node] follows the children of the
    tree; [fuel] bounds its depth, and [None] stands for a search that has
    not returned within it. *)
Fixpoint search_sentence_for_node (fuel : nat) (doc : Doc) (node : Token)
    (node_pattern : node_pattern) : option (list Token) :=
  match fuel with
  | 0 => None
  | S fuel' =>
      let discovered := if match_node_pattern doc node node_pattern then [node] else [] in
      found ← mapM (λ child, search_sentence_for_node fuel' doc child node_pattern)
                   (children doc node);
      Some (discovered ++ concat found)
  end.

Fixpoint follow_branch (doc : Doc) (node : Token) (branch : list node_pattern) : nat :=
  match branch with
  | [] => 1
  | b0 :: rest =>
      let matches :=
        filter (λ child, match_node_pattern doc child b0 = true) (children doc node) in
      match matches with
      | [] => 0
      | _ => 0 + sum_list (map (λ m, follow_branch doc m rest) matches)
      end
  end.

(** A sentence is the document together with the root token of the
    sentence. *)
Record Sentence := mkSentence {
  sent_doc : Doc;
  root : Token
}.

(** One turn of the loop of [search_sentence_for_pattern]. *)
Definition add_fork_matches (doc : Doc) (pattern : pattern)
    (matches : nat) (com_anc_match : Token) : nat :=
  let branch1_matches := follow_branch doc com_anc_match (branch1 pattern) in
  let branch2_matches := follow_branch doc com_anc_match (branch2 pattern) in
  matches + branch1_matches * branch2_matches.

Definition search_sentence_for_pattern (fuel : nat) (sentence : Sentence)
    (pattern : pattern) : option nat :=
  com_anc_matches ←
    search_sentence_for_node fuel (sent_doc sentence) (root sentence)
                             (common_ancestor pattern);
  Some (foldl (add_fork_matches (sent_doc sentence) pattern) 0 com_anc_matches).

(** ** The scenario of the specification

    root(VERB, raise, ROOT) with children A(NOUN, nsubj) and B(NOUN, dobj). *)
Definition raise_doc : Doc :=
  [ mkTokenC "Balderton" "balderton" "NOUN" "nsubj" (Some 1);
    mkTokenC "raised" "raise" "VERB" "ROOT" None;
    mkTokenC "funds" "fund" "NOUN" "dobj" (Some 1) ].

(** ** Well-formed documents *)

(** [ancestry doc node l]: following the heads from [node] reaches a root,
    and [l] lists the tokens passed on the way, nearest first. *)
Inductive ancestry (doc : Doc) : Token → list Token → Prop :=
| ancestry_root node :
    node < length doc → parent doc node = None → ancestry doc node []
| ancestry_step node p l :
    parent doc node = Some p → ancestry doc p l → ancestry doc node (p :: l).

(** Every token has a (single) head path that ends in a root: unique parent
    links and no cycle. *)
Definition wf_doc (doc : Doc) : Prop :=
  ∀ node, node < length doc → ∃ l, ancestry doc node l.

(** The root reached from a token. *)
Definition root_of (doc : Doc) (node : Token) : option Token :=
  last (chain doc node).

(** Two tokens of the same sentence tree reach the same root. *)
Definition same_tree (doc : Doc) (a b : Token) : Prop :=
  root_of doc a = root_of doc b.

(** A decision procedure for well-formedness: the bounded walk from every
    token must stop on a token of the document that has no head. *)
Definition rootedb (doc : Doc) (node : Token) : bool :=
  match root_of doc node with
  | Some r => bool_decide (r < length doc ∧ parent doc r = None)
  | None => false
  end.

Definition wf_docb (doc : Doc) : bool :=
  forallb (rootedb doc) (seq 0 (length doc)).

(** [in_subtree doc top node]: [node] is [top] or lies below it. *)
Definition in_subtree (doc : Doc) (top node : Token) : Prop :=
  top ∈ chain doc node.

(** ** Descent paths *)

(** [descent_path doc node branch path]: [path] goes down from [node], one
    child at a time, and its tokens match the specs of [branch] in order. *)
Inductive descent_path (doc : Doc) : Token → list node_pattern → list Token → Prop :=
| descent_nil node : descent_path doc node [] []
| descent_cons node b0 rest child path :
    parent doc child = Some node →
    match_node_pattern doc child b0 = true →
    descent_path doc child rest path →
    descent_path doc node (b0 :: rest) (child :: path).

(** The descent paths from [node] that satisfy [branch], listed. *)
Fixpoint branch_paths (doc : Doc) (node : Token) (branch : list node_pattern)
    : list (list Token) :=
  match branch with
  | [] => [[]]
  | b0 :: rest =>
      child ← filter (λ child, match_node_pattern doc child b0 = true)
                     (children doc node);
      (cons child) <$> branch_paths doc child rest
  end.

(** ** The specs of an extracted pattern *)

(** The [{pos, dep}] spec that [matching_pattern] takes from a branch
    token. *)
Definition branch_spec (doc : Doc) (node : Token) : node_pattern :=
  [(pos, getattr doc node pos); (dep, getattr doc node dep)].

(** The [{pos, lemma}] spec that [matching_pattern] takes from the fork. *)
Definition fork_spec (doc : Doc) (node : Token) : node_pattern :=
  [(pos, getattr doc node pos); (lemma, getattr doc node lemma)].

(** ** Trees that differ in literal text only *)

(** A spec that names grammatical labels only: [pos], [dep] or [lemma]. *)
Definition label_spec (spec : node_pattern) : Prop :=
  Forall (λ item, item.1 ≠ orth) spec.

(** A pattern all of whose specs name grammatical labels only. *)
Definition label_pattern (pat : pattern) : Prop :=
  label_spec (common_ancestor pat) ∧
  Forall label_spec (branch1 pat) ∧
  Forall label_spec (branch2 pat).

(** [tree_iso σ doc1 doc2]: [σ] maps the tokens of [doc1] one-to-one onto
    those of [doc2], keeping the head links and the [pos], [dep] and [lemma]
    labels; the literal text is free. *)
Record tree_iso (σ : Token → Token) (doc1 doc2 : Doc) : Prop := mk_tree_iso {
  iso_length : length doc1 = length doc2;
  iso_lt : ∀ i, i < length doc1 → σ i < length doc2;
  iso_inj : ∀ i j, i < length doc1 → j < length doc1 → σ i = σ j → i = j;
  iso_parent : ∀ i, i < length doc1 → parent doc2 (σ i) = σ <$> parent doc1 i;
  iso_labels : ∀ i a, i < length doc1 → a ≠ orth →
                      getattr doc2 (σ i) a = getattr doc1 i a
}.

(** A decision procedure for [tree_iso]. *)
Definition tree_isob (σ : Token → Token) (doc1 doc2 : Doc) : bool :=
  bool_decide (length doc1 = length doc2)
  && bool_decide (NoDup (σ <$> seq 0 (length doc1)))
  && forallb (λ i,
       bool_decide (σ i < length doc2)
       && bool_decide (parent doc2 (σ i) = σ <$> parent doc1 i)
       && forallb (λ a, bool_decide (getattr doc2 (σ i) a = getattr doc1 i a))
                  [lemma; pos; dep])
     (seq 0 (length doc1)).

(** Rewriting the literal text of every token. *)
Definition rename_orth (f : string → string) (doc : Doc) : Doc :=
  map (λ t, mkTokenC (f (orth_ t)) (lemma_ t) (pos_ t) (dep_ t) (head t)) doc.

(** ** Example documents and patterns *)

(** Two sentences in one document: the tokens of the second do not reach the
    root of the first. *)
Definition two_sentence_doc : Doc :=
  [ mkTokenC "Balderton" "balderton" "NOUN" "nsubj" (Some 1);
    mkTokenC "raised" "raise" "VERB" "ROOT" None;
    mkTokenC "funds" "fund" "NOUN" "dobj" (Some 1);
    mkTokenC "Startups" "startup" "NOUN" "nsubj" (Some 4);
    mkTokenC "grow" "grow" "VERB" "ROOT" None ].

(** Two NOUN/dobj children under the VERB/raise root. *)
Definition two_objects_doc : Doc :=
  [ mkTokenC "Balderton" "balderton" "NOUN" "nsubj" (Some 1);
    mkTokenC "raised" "raise" "VERB" "ROOT" None;
    mkTokenC "funds" "fund" "NOUN" "dobj" (Some 1);
    mkTokenC "money" "money" "NOUN" "dobj" (Some 1) ].

(** The scenario with the tokens in another order and other words. *)
Definition raise_doc_reordered : Doc :=
  [ mkTokenC "raises" "raise" "VERB" "ROOT" None;
    mkTokenC "capital" "fund" "NOUN" "dobj" (Some 0);
    mkTokenC "Accel" "balderton" "NOUN" "nsubj" (Some 0) ].

(** The correspondence between [raise_doc] and [raise_doc_reordered]. *)
Definition reorder (i : Token) : Token :=
  match i with
  | 0 => 2
  | 1 => 0
  | 2 => 1
  | _ => i
  end.

(** A document whose head links form a cycle, as no parser produces. *)
Definition cyclic_doc : Doc :=
  [ mkTokenC "a" "a" "X" "dep" (Some 1);
    mkTokenC "b" "b" "X" "dep" (Some 0) ].

(** The pattern of the scenario, as it should be extracted. *)
Definition raise_pattern : pattern :=
  mkPattern [(pos, "VERB"); (lemma, "raise")]
            [[(pos, "NOUN"); (dep, "nsubj")]]
            [[(pos, "NOUN"); (dep, "dobj")]].

(** A pattern that names the literal text of the fork. *)
Definition orth_pattern : pattern := mkPattern [(orth, "raised")] [] [].

(** ** Title lines

    [turn_titles_into_sentences] works on the lines of the raw text.  Texts
    are lists of characters; the class of characters that [str.strip()]
    removes belongs to the language, and is a parameter [isspace] here. *)

Definition text := list ascii.

Definition newline : ascii := "010"%char.

Definition full_stop : ascii := "."%char.

(** [s.split(sep)] with a separator of one character. *)
Fixpoint str_split (sep : ascii) (s : text) : list text :=
  match s with
  | [] => [[]]
  | c :: s' =>
      if decide (c = sep) then [] :: str_split sep s'
      else match str_split sep s' with
           | p :: ps => (c :: p) :: ps
           | [] => [[c]]
           end
  end.

(** [sep.join(parts)] *)
Fixpoint str_join (sep : ascii) (parts : list text) : text :=
  match parts with
  | [] => []
  | p :: rest =>
      match rest with
      | [] => p
      | _ => p ++ sep :: str_join sep rest
      end
  end.

(** [s.endswith(c)] *)
Definition endswith (s : text) (c : ascii) : bool :=
  bool_decide (last s = Some c).

Fixpoint lstrip (isspace : ascii → bool) (s : text) : text :=
  match s with
  | [] => []
  | c :: s' => if isspace c then lstrip isspace s' else s
  end.

Definition rstrip (isspace : ascii → bool) (s : text) : text :=
  reverse (lstrip isspace (reverse s)).

(** [s.strip()] *)
Definition strip (isspace : ascii → bool) (s : text) : text :=
  rstrip isspace (lstrip isspace s).

(** The [while] loop of [turn_titles_into_sentences]: [i] is the index, the
    list is updated in place, and [fuel] bounds the number of turns ([None]
    when it runs out). *)
Fixpoint titles_loop (isspace : ascii → bool) (fuel i : nat)
    (paragraphs : list text) : option (list text) :=
  match paragraphs !! i with
  | None => Some paragraphs
  | Some p =>
      if endswith p full_stop then Some paragraphs
      else
        match fuel with
        | 0 => None
        | S fuel' =>
            let paragraphs :=
              if bool_decide (p ≠ [])
              then <[i := strip isspace p ++ [full_stop]]> paragraphs
              else paragraphs in
            titles_loop isspace fuel' (S i) paragraphs
        end
  end.

Definition turn_titles_into_sentences (isspace : ascii → bool) (raw_text : text)
    : option text :=
  let paragraphs := str_split newline raw_text in
  paragraphs ← titles_loop isspace (length paragraphs) 0 paragraphs;
  Some (str_join newline paragraphs).

(** What the loop makes of a line above the first sentence. *)
Definition title_line (isspace : ascii → bool) (p : text) : text :=
  if bool_decide (p ≠ []) then strip isspace p ++ [full_stop] else p.

(** The lines of the text with the title lines closed, by recursion on the
    lines: the reading of the loop that the proofs use. *)
Fixpoint close_titles (isspace : ascii → bool) (paragraphs : list text) : list text :=
  match paragraphs with
  | [] => []
  | p :: rest =>
      if endswith p full_stop then p :: rest
      else title_line isspace p :: close_titles isspace rest
  end.

(** The characters of a string literal, for the examples. *)
Definition text_of (s : string) : text := String.list_ascii_of_string s.

(** The white space of ASCII, for the examples. *)
Definition ascii_isspace (c : ascii) : bool :=
  bool_decide (c ∈ [" "; "009"; "010"; "011"; "012"; "013"]%char).

(** ** The corpus driver

    The parts of [search_files_for_relationships] and
    [write_matching_patterns_to_file] that do not touch the file system. *)

(** [stdout[:-1].split("\n")]: the file names in the output of the shell
    command. *)
Definition filenames_of_stdout (stdout : text) : list text :=
  str_split newline (take (length stdout - 1) stdout).

(** [itertools.product(l, k)] *)
Definition product {A B} (l : list A) (k : list B) : list (A * B) :=
  a ← l; b ← k; [(a, b)].

(** [[(Relationship(pair[0], pair[1]), sentence) for pair in entity_pairs]]:
    the first constructor that raises ends the comprehension. *)
Fixpoint relationships_of_pairs (sentence : Sentence) (entity_pairs : list (Token * Token))
    : exn + list (Relationship.t * Sentence) :=
  match entity_pairs with
  | [] => inr []
  | (token1, token2) :: rest =>
      match Relationship.init (sent_doc sentence) token1 token2 with
      | inl e => inl e
      | inr r =>
          match relationships_of_pairs sentence rest with
          | inl e => inl e
          | inr rs => inr ((r, sentence) :: rs)
          end
      end
  end.

(** The relationships that one sentence adds to the result of
    [search_files_for_relationships]. *)
Definition sentence_relationships (sentence : Sentence)
    (entity1_instances entity2_instances : list Token)
    : exn + list (Relationship.t * Sentence) :=
  let entity_pairs := product entity1_instances entity2_instances in
  relationships_of_pairs sentence entity_pairs.

(** [[relationship[0].matching_pattern for relationship in relationships]] *)
Fixpoint matching_patterns (relationships : list (Relationship.t * Sentence))
    : exn + list pattern :=
  match relationships with
  | [] => inr []
  | relationship :: rest =>
      match Relationship.matching_pattern (sent_doc relationship.2) relationship.1 with
      | None => inl IndexError
      | Some pat =>
          match matching_patterns rest with
          | inl e => inl e
          | inr pats => inr (pat :: pats)
          end
      end
  end.

(** [write_matching_patterns_to_file]: the name of the file and the list
    handed to [json.dump], or the exception raised before the file is
    opened.  A token prints as its text. *)
Definition write_matching_patterns_to_file (relationships : list (Relationship.t * Sentence))
    : exn + (string * list pattern) :=
  match matching_patterns relationships with
  | inl e => inl e
  | inr patterns =>
      match relationships !! 0 with
      | None => inl IndexError
      | Some first =>
          let doc := sent_doc first.2 in
          let filename :=
            (getattr doc (Relationship.token1 first.1) orth +:+ "_"
             +:+ getattr doc (Relationship.token2 first.1) orth +:+ ".json")%string in
          inr (filename, patterns)
      end
  end.

(** ** Refining a pattern *)

(** [refines spec' spec]: the dictionary [spec'] has every item of [spec]. *)
Definition refines (spec' spec : node_pattern) : Prop := spec ⊆ spec'.

Definition pattern_refines (pat' pat : pattern) : Prop :=
  refines (common_ancestor pat') (common_ancestor pat) ∧
  Forall2 refines (branch1 pat') (branch1 pat) ∧
  Forall2 refines (branch2 pat') (branch2 pat).

(** The relationship of A and B in the scenario. *)
Definition raise_relationship : Relationship.t :=
  Relationship.mk 0 2 [1] [0] [2].

(** A pattern with fewer items than [raise_pattern]. *)
Definition noun_pattern : pattern :=
  mkPattern [(pos, "VERB")] [[(pos, "NOUN")]] [[(pos, "NOUN")]].

(** * Proofs *)

(** Two splits of a list at the first occurrence of [x] coincide. *)
Lemma app_cons_first_inj {A} (l1 l1' l2 l2' : list A) x :
  x ∉ l1 → x ∉ l1' → l1 ++ x :: l2 = l1' ++ x :: l2' → l1 = l1' ∧ l2 = l2'.
Proof.
  revert l1'. induction l1 as [|y l1 IH]; intros [|z l1'] H1 H1' Heq; simpl in *.
  - by injection Heq as ->.
  - injection Heq as -> _. exfalso. apply H1'. by left.
  - injection Heq as -> _. exfalso. apply H1. by left.
  - injection Heq as -> Heq.
    destruct (IH l1') as [-> ->]; [| |done|done].
    + intros Hin. apply H1. by right.
    + intros Hin. apply H1'. by right.
Qed.

Section Ancestry.
Variable doc : Doc.

Lemma parent_lt node p : parent doc node = Some p → node < length doc.
Proof.
  unfold parent. destruct (doc !! node) eqn:E; [|done].
  intros _. by eapply lookup_lt_Some.
Qed.

Lemma ancestry_lt node l : ancestry doc node l → node < length doc.
Proof. destruct 1; eauto using parent_lt. Qed.

Lemma ancestry_Forall_lt node l :
  ancestry doc node l → Forall (λ x, x < length doc) l.
Proof.
  induction 1 as [|node p l Hp H IH]; constructor; eauto using ancestry_lt.
Qed.

Lemma ancestry_inj node l1 l2 :
  ancestry doc node l1 → ancestry doc node l2 → l1 = l2.
Proof.
  intros H. revert l2.
  induction H as [node Hlt Hp|node p l Hp H IH]; intros l2 H2;
    inversion H2; subst; try congruence.
  assert (p0 = p) as -> by congruence. f_equal. by apply IH.
Qed.

Lemma ancestry_split node l x :
  ancestry doc node l → x ∈ l →
  ∃ l1 l2, l = l1 ++ x :: l2 ∧ ancestry doc x l2.
Proof.
  induction 1 as [|node p l Hp H IH]; intros Hx.
  - by apply elem_of_nil in Hx.
  - destruct (decide (x = p)) as [->|Hne].
    + by exists [], l.
    + apply elem_of_cons in Hx as [?|Hx]; [done|].
      destruct (IH Hx) as (l1 & l2 & -> & H2).
      by exists (p :: l1), l2.
Qed.

(** No token is its own ancestor. *)
Lemma ancestry_not_elem node l : ancestry doc node l → node ∉ l.
Proof.
  intros H Hin.
  destruct (ancestry_split _ _ _ H Hin) as (l1 & l2 & Heq & H2).
  pose proof (ancestry_inj _ _ _ H H2) as Heq'.
  apply (f_equal length) in Heq. rewrite Heq' in Heq at 1.
  rewrite length_app in Heq. simpl in Heq. lia.
Qed.

Lemma ancestry_NoDup node l : ancestry doc node l → NoDup (node :: l).
Proof.
  induction 1 as [node Hlt Hp|node p l Hp H IH].
  - apply NoDup_singleton.
  - apply NoDup_cons. split; [|done].
    apply ancestry_not_elem. by econstructor.
Qed.

(** A head path visits each token at most once, so it is shorter than the
    document. *)
Lemma ancestry_length node l : ancestry doc node l → length l < length doc.
Proof.
  intros H.
  assert (length (node :: l) ≤ length (seq 0 (length doc))) as Hle.
  { apply submseteq_length, NoDup_submseteq; [by apply ancestry_NoDup|].
    intros x Hx. apply elem_of_seq. split; [lia|]. simpl.
    apply elem_of_cons in Hx as [->|Hx]; [by eapply ancestry_lt|].
    pose proof (ancestry_Forall_lt _ _ H) as HF.
    rewrite Forall_forall in HF. by apply HF. }
  rewrite length_seq in Hle. simpl in Hle. lia.
Qed.

Lemma ancestors_from_ancestry node l fuel :
  ancestry doc node l → length l ≤ fuel → ancestors_from fuel doc node = l.
Proof.
  intros H. revert fuel.
  induction H as [node Hlt Hp|node p l Hp H IH]; intros fuel Hfuel.
  - destruct fuel; simpl; [done|]. by rewrite Hp.
  - destruct fuel as [|fuel]; simpl in *; [lia|].
    rewrite Hp. f_equal. apply IH. lia.
Qed.

Lemma ancestry_ancestors node l : ancestry doc node l → ancestors doc node = l.
Proof.
  intros H. apply ancestors_from_ancestry; [done|].
  apply ancestry_length in H. lia.
Qed.

(** The bounded walk, when it stops on a root, is a head path. *)
Lemma ancestors_from_rooted fuel node r :
  node < length doc →
  last (node :: ancestors_from fuel doc node) = Some r →
  r < length doc → parent doc r = None →
  ancestry doc node (ancestors_from fuel doc node).
Proof.
  revert node. induction fuel as [|fuel IH]; intros node Hlt Hlast Hr Hroot; simpl in *.
  - injection Hlast as ->. by constructor.
  - destruct (parent doc node) as [p|] eqn:Hp.
    + rewrite last_cons_cons in Hlast.
      assert (p < length doc) as Hplt.
      { destruct (decide (p < length doc)); [done|].
        assert (parent doc p = None) as Hnone.
        { assert (doc !! p = None) as Hn by (apply lookup_ge_None_2; lia).
          unfold parent. by rewrite Hn. }
        destruct fuel; simpl in Hlast; [|rewrite Hnone in Hlast];
          injection Hlast as ->; lia. }
      econstructor; [done|]. by apply IH.
    + by constructor.
Qed.

Lemma wf_docb_sound : wf_docb doc = true → wf_doc doc.
Proof.
  unfold wf_docb. rewrite forallb_forall. intros Hall node Hlt.
  specialize (Hall node). rewrite <-list_elem_of_In, elem_of_seq in Hall.
  specialize (Hall ltac:(lia)). unfold rootedb, root_of, chain, ancestors in Hall.
  destruct (last _) as [r|] eqn:Hlast; [|done].
  apply bool_decide_eq_true in Hall as [Hr Hroot].
  eexists. by eapply ancestors_from_rooted.
Qed.

Hypothesis Hwf : wf_doc doc.

Lemma wf_ancestry node : node < length doc → ancestry doc node (ancestors doc node).
Proof.
  intros Hlt. destruct (Hwf node Hlt) as [l Hl].
  by rewrite (ancestry_ancestors _ _ Hl).
Qed.

Lemma chain_lt node x : node < length doc → x ∈ chain doc node → x < length doc.
Proof.
  intros Hlt [->|Hx]%elem_of_cons; [done|].
  pose proof (ancestry_Forall_lt _ _ (wf_ancestry _ Hlt)) as HF.
  rewrite Forall_forall in HF. by apply HF.
Qed.

Lemma chain_NoDup node : node < length doc → NoDup (chain doc node).
Proof. intros Hlt. by apply ancestry_NoDup, wf_ancestry. Qed.

Lemma ancestors_parent node p :
  parent doc node = Some p → ancestors doc node = p :: ancestors doc p.
Proof.
  intros Hp. pose proof (parent_lt _ _ Hp) as Hlt.
  pose proof (wf_ancestry _ Hlt) as H.
  inversion H as [? ? Hnone Heq|? p' l Hp' Hl Heq]; subst; [congruence|].
  assert (p' = p) as -> by congruence.
  f_equal. symmetry. by apply ancestry_ancestors.
Qed.

Lemma ancestors_root node :
  node < length doc → parent doc node = None → ancestors doc node = [].
Proof. intros Hlt Hp. apply ancestry_ancestors. by constructor. Qed.

(** The chain of a token on a chain is the rest of that chain. *)
Lemma chain_split node x :
  node < length doc → x ∈ chain doc node →
  ∃ l1, chain doc node = l1 ++ chain doc x.
Proof.
  intros Hlt [->|Hx]%elem_of_cons; [by exists []|].
  destruct (ancestry_split _ _ _ (wf_ancestry _ Hlt) Hx) as (l1 & l2 & Heq & H2).
  exists (node :: l1). unfold chain. rewrite Heq.
  by rewrite (ancestry_ancestors _ _ H2).
Qed.

Lemma chain_app_inv node l1 x l2 :
  node < length doc → chain doc node = l1 ++ x :: l2 → chain doc x = x :: l2.
Proof.
  intros Hlt Heq.
  destruct (chain_split node x Hlt) as [l1' Heq'].
  { rewrite Heq. apply elem_of_app. right. by left. }
  pose proof (chain_NoDup _ Hlt) as Hnd.
  assert (x ∉ l1) as Hx1.
  { rewrite Heq in Hnd. apply NoDup_app in Hnd as (_ & Hd & _).
    intros Hin. apply (Hd _ Hin). by left. }
  assert (x ∉ l1') as Hx1'.
  { rewrite Heq' in Hnd. apply NoDup_app in Hnd as (_ & Hd & _).
    intros Hin. apply (Hd _ Hin). by left. }
  rewrite Heq' in Heq. unfold chain at 1 in Heq.
  destruct (app_cons_first_inj _ _ _ _ _ Hx1' Hx1 Heq) as [_ <-]. done.
Qed.

Lemma root_of_chain node x :
  node < length doc → x ∈ chain doc node → root_of doc x = root_of doc node.
Proof.
  intros Hlt Hx. destruct (chain_split _ _ Hlt Hx) as [l1 Heq].
  unfold root_of. rewrite Heq. unfold chain at 2. by rewrite last_app_cons.
Qed.

Lemma root_of_elem node : ∃ r, root_of doc node = Some r ∧ r ∈ chain doc node.
Proof.
  unfold root_of. destruct (last (chain doc node)) as [r|] eqn:E.
  - exists r. split; [done|]. apply last_Some in E as [l' ->].
    apply elem_of_app. right. by left.
  - by apply last_None in E.
Qed.

(** A token is never among its own ancestors. *)
Lemma ancestors_irrefl node : node < length doc → node ∉ ancestors doc node.
Proof. intros Hlt. by apply ancestry_not_elem, wf_ancestry. Qed.

(** Ancestry is antisymmetric. *)
Lemma ancestors_asym x y :
  x < length doc → y ∈ ancestors doc x → x ∉ ancestors doc y.
Proof.
  intros Hlt Hy Hx.
  destruct (ancestry_split _ _ _ (wf_ancestry _ Hlt) Hy) as (l1 & l2 & Heq & H2).
  rewrite <-(ancestry_ancestors _ _ H2) in Heq.
  apply (ancestors_irrefl x Hlt). rewrite Heq.
  apply elem_of_app. right. by right.
Qed.

End Ancestry.

(** ** The fork of two chains *)

Section ForkChains.
Import Relationship.

(** When the chains are split at the first token of [chain1] that occurs
    in [chain2], and at the first occurrence of that token in [chain2]. *)
Lemma fork_chains_split (chain1 chain2 l1 l2 s1 s2 : list Token) (f : Token) :
  chain1 = l1 ++ f :: s1 → chain2 = l2 ++ f :: s2 →
  (∀ x, x ∈ l1 → x ∉ chain2) → f ∉ l2 →
  fork_chains chain1 chain2 =
    if decide (f :: s1 ≠ f :: s2) then inl ValueError_ambiguity
    else inr (reverse (f :: s1), reverse l1, reverse l2).
Proof.
  intros -> -> Hfirst Hf2. unfold fork_chains.
  assert (list_find (λ token, token ∈ l2 ++ f :: s2) (l1 ++ f :: s1)
          = Some (length l1, f)) as ->.
  { apply list_find_Some. split_and!.
    - by rewrite list_lookup_middle.
    - apply elem_of_app. right. by left.
    - intros j y Hj Hlt. apply Hfirst.
      rewrite lookup_app_l in Hj by done. by eapply list_elem_of_lookup_2. }
  simpl. rewrite list_lookup_middle by done.
  assert (list_find (λ y, y = f) (l2 ++ f :: s2) = Some (length l2, f)) as ->.
  { apply list_find_Some. split_and!.
    - by rewrite list_lookup_middle.
    - done.
    - intros j y Hj Hlt ->. apply Hf2.
      rewrite lookup_app_l in Hj by done. by eapply list_elem_of_lookup_2. }
  rewrite !take_app_length, !drop_app_length. done.
Qed.

(** Two chains that share a token can be split that way. *)
Lemma shared_split (chain1 chain2 : list Token) x :
  x ∈ chain1 → x ∈ chain2 →
  ∃ l1 l2 s1 s2 f,
    chain1 = l1 ++ f :: s1 ∧ chain2 = l2 ++ f :: s2 ∧
    (∀ y, y ∈ l1 → y ∉ chain2) ∧ f ∉ l2.
Proof.
  intros H1 H2.
  destruct (list_find_elem_of (λ token, token ∈ chain2) chain1 x H1 H2)
    as [[i1 f] Hfind1].
  apply list_find_Some in Hfind1 as (Hi1 & Hf & Hleast1).
  destruct (list_find_elem_of (λ y, y = f) chain2 f Hf eq_refl)
    as [[i2 f'] Hfind2].
  apply list_find_Some in Hfind2 as (Hi2 & -> & Hleast2).
  exists (take i1 chain1), (take i2 chain2),
    (drop (S i1) chain1), (drop (S i2) chain2), f.
  split_and!.
  - by rewrite take_drop_middle.
  - by rewrite take_drop_middle.
  - intros y Hy. apply list_elem_of_lookup in Hy as [j Hj].
    pose proof (lookup_lt_Some _ _ _ Hj) as Hlen. rewrite length_take in Hlen.
    rewrite lookup_take_lt in Hj by lia. eapply Hleast1; [done|lia].
  - intros Hy. apply list_elem_of_lookup in Hy as [j Hj].
    pose proof (lookup_lt_Some _ _ _ Hj) as Hlen. rewrite length_take in Hlen.
    rewrite lookup_take_lt in Hj by lia. eapply Hleast2; [done|lia|done].
Qed.

Lemma fork_chains_unrelated (chain1 chain2 : list Token) :
  fork_chains chain1 chain2 = inl ValueError_unrelated ↔
  ∀ x, x ∈ chain1 → x ∉ chain2.
Proof.
  split.
  - intros Hres x H1 H2.
    destruct (shared_split _ _ _ H1 H2)
      as (l1 & l2 & s1 & s2 & f & E1 & E2 & Hfirst & Hf).
    rewrite (fork_chains_split _ _ _ _ _ _ _ E1 E2 Hfirst Hf) in Hres.
    by case_decide.
  - intros Hno. unfold fork_chains.
    assert (list_find (λ token, token ∈ chain2) chain1 = None) as ->; [|done].
    apply list_find_None, Forall_forall. intros x Hx. by apply Hno.
Qed.

(** The lookups of the program never fail: the only exceptions are the
    two it raises itself. *)
Lemma fork_chains_exn (chain1 chain2 : list Token) e :
  fork_chains chain1 chain2 = inl e →
  e = ValueError_unrelated ∨ e = ValueError_ambiguity.
Proof.
  intros Hres.
  destruct (decide (Exists (λ x, x ∈ chain2) chain1))
    as [(x & H1 & H2)%Exists_exists|Hno].
  - destruct (shared_split _ _ _ H1 H2)
      as (l1 & l2 & s1 & s2 & f & E1 & E2 & Hfirst & Hf).
    rewrite (fork_chains_split _ _ _ _ _ _ _ E1 E2 Hfirst Hf) in Hres.
    case_decide; naive_solver.
  - left. assert (fork_chains chain1 chain2 = inl ValueError_unrelated) as Hu.
    { apply fork_chains_unrelated. intros x H1 H2.
      apply Hno, Exists_exists. eauto. }
    congruence.
Qed.

End ForkChains.

(** ** Relationships in a well-formed document *)

Section RelationshipWf.
Variable doc : Doc.
Hypothesis Hwf : wf_doc doc.

Lemma same_tree_shared a b :
  same_tree doc a b → ∃ x, x ∈ chain doc a ∧ x ∈ chain doc b.
Proof.
  unfold same_tree. intros Hsame.
  destruct (root_of_elem doc a) as (r & Hr & Ha).
  destruct (root_of_elem doc b) as (r' & Hr' & Hb).
  exists r. split; [done|]. congruence.
Qed.

(** Two related tokens: both chains end with the chain of one token [f],
    and the parts below [f] have no token of the other chain. *)
Lemma find_relationship_wf a b x :
  a < length doc → b < length doc →
  x ∈ chain doc a → x ∈ chain doc b →
  ∃ l1 l2 f,
    chain doc a = l1 ++ chain doc f ∧ chain doc b = l2 ++ chain doc f ∧
    (∀ y, y ∈ l1 → y ∉ chain doc b) ∧ (∀ y, y ∈ l2 → y ∉ chain doc a) ∧
    Relationship.find_relationship doc a b
      = inr (reverse (chain doc f), reverse l1, reverse l2) ∧
    Relationship.find_relationship doc b a
      = inr (reverse (chain doc f), reverse l2, reverse l1).
Proof.
  intros Ha Hb Hxa Hxb.
  destruct (shared_split _ _ _ Hxa Hxb)
    as (l1 & l2 & s1 & s2 & f & E1 & E2 & Hfirst & Hf).
  pose proof (chain_app_inv doc Hwf _ _ _ _ Ha E1) as Hf1.
  pose proof (chain_app_inv doc Hwf _ _ _ _ Hb E2) as Hf2.
  assert (s1 = s2) as <- by congruence.
  assert (∀ y, y ∈ l2 → y ∉ chain doc a) as Hfirst'.
  { intros y Hy2 Hya. rewrite E1 in Hya.
    apply elem_of_app in Hya as [Hy1|Hys].
    + apply (Hfirst y Hy1). rewrite E2. apply elem_of_app. by left.
    + pose proof (chain_NoDup doc Hwf _ Hb) as Hnd. rewrite E2 in Hnd.
      apply NoDup_app in Hnd as (_ & Hd & _). by apply (Hd y). }
  assert (f ∉ l1) as Hf'.
  { intros Hin. apply (Hfirst f Hin). rewrite E2. apply elem_of_app. right. by left. }
  exists l1, l2, f. rewrite Hf1. split_and!; [done..| |].
  - unfold Relationship.find_relationship. simpl.
    change (a :: ancestors doc a) with (chain doc a).
    change (b :: ancestors doc b) with (chain doc b).
    rewrite (fork_chains_split _ _ _ _ _ _ _ E1 E2 Hfirst Hf).
    by rewrite decide_False by (by intros ?).
  - unfold Relationship.find_relationship. simpl.
    change (a :: ancestors doc a) with (chain doc a).
    change (b :: ancestors doc b) with (chain doc b).
    rewrite (fork_chains_split _ _ _ _ _ _ _ E2 E1 Hfirst' Hf').
    by rewrite decide_False by (by intros ?).
Qed.

End RelationshipWf.

(** The constructor passes on the exceptions of [find_relationship], which
    are those of the fork of the two chains. *)
Lemma init_exn (doc : Doc) (token1 token2 : Token) e :
  Relationship.init doc token1 token2 = inl e ↔
  Relationship.fork_chains (chain doc token1) (chain doc token2) = inl e.
Proof.
  unfold Relationship.init, Relationship.find_relationship. simpl.
  change (token1 :: ancestors doc token1) with (chain doc token1).
  change (token2 :: ancestors doc token2) with (chain doc token2).
  destruct (Relationship.fork_chains _ _) as [e'|[[ca b1] b2]].
  - split; intros [= ->]; reflexivity.
  - split; discriminate.
Qed.

(** ** Properties of the relationship finder *)

(** C10: [Relationship(a, a)] is built without error for every token; its
    fork is [a], both branches are empty and the common ancestors are the
    whole chain of [a], root first and [a] last. *)
Theorem relationship_self (doc : Doc) (a : Token) :
  ∃ r, Relationship.init doc a a = inr r ∧
       Relationship.forking_node r = Some a ∧
       Relationship.branch1 r = [] ∧
       Relationship.branch2 r = [] ∧
       Relationship.common_ancestors r = reverse (chain doc a) ∧
       last (reverse (chain doc a)) = Some a.
Proof.
  assert (Relationship.find_relationship doc a a
          = inr (reverse (chain doc a), [], [])) as Hfind.
  { unfold Relationship.find_relationship. simpl.
    rewrite (fork_chains_split _ _ [] [] (ancestors doc a) (ancestors doc a) a);
      try done.
    - by rewrite decide_False by (by intros ?).
    - intros x Hx. by apply elem_of_nil in Hx.
    - apply not_elem_of_nil. }
  assert (last (reverse (chain doc a)) = Some a) as Hlast.
  { unfold chain. by rewrite reverse_cons, last_snoc. }
  eexists. unfold Relationship.init. rewrite Hfind.
  split; [done|]. unfold Relationship.forking_node. simpl. by rewrite Hlast.
Qed.

(** C7: building a relationship raises the unrelated-tokens error exactly
    when the two chains (self first, root last) share no token; tokens whose
    chains share none never yield a relationship, and no other exception
    than the two of the program can come out. *)
Theorem unrelated_tokens_error (doc : Doc) (token1 token2 : Token) :
  (Relationship.init doc token1 token2 = inl ValueError_unrelated ↔
     ∀ x, x ∈ chain doc token1 → x ∉ chain doc token2) ∧
  ((∀ x, x ∈ chain doc token1 → x ∉ chain doc token2) →
     ∀ r, Relationship.init doc token1 token2 ≠ inr r) ∧
  (∀ e, Relationship.init doc token1 token2 = inl e →
     e = ValueError_unrelated ∨ e = ValueError_ambiguity).
Proof.
  pose proof (init_exn doc token1 token2) as Hinit.
  split_and!.
  - rewrite Hinit. apply fork_chains_unrelated.
  - intros Hno r Hr. apply fork_chains_unrelated in Hno.
    apply Hinit in Hno. congruence.
  - intros e He. apply Hinit in He. by eapply fork_chains_exn.
Qed.

Lemma unrelated_tokens_error_witness :
  Relationship.init two_sentence_doc 0 3 = inl ValueError_unrelated.
Proof.
  apply (proj1 (unrelated_tokens_error two_sentence_doc 0 3)).
  intros x Hx Hx'. vm_compute in Hx, Hx'.
  repeat (apply elem_of_cons in Hx as [->|Hx]);
    [..|by apply elem_of_nil in Hx];
    repeat (apply elem_of_cons in Hx' as [Hx'|Hx']); try lia;
    by apply elem_of_nil in Hx'.
Defined.

(** C3: for two tokens of one well-formed tree the relationship is built,
    and its fork is on the chains of both tokens (an ancestor of both, each
    token counting among its own ancestors), while no token strictly below
    the fork is on both chains. *)
Theorem fork_is_lowest_common_ancestor (doc : Doc) (a b : Token) :
  wf_doc doc → a < length doc → b < length doc → same_tree doc a b →
  ∃ r f, Relationship.init doc a b = inr r ∧
         Relationship.forking_node r = Some f ∧
         f ∈ chain doc a ∧ f ∈ chain doc b ∧
         (∀ d, f ∈ ancestors doc d → ¬ (d ∈ chain doc a ∧ d ∈ chain doc b)).
Proof.
  intros Hwf Ha Hb Hsame.
  destruct (same_tree_shared doc a b Hsame) as (x & Hxa & Hxb).
  destruct (find_relationship_wf doc Hwf a b x Ha Hb Hxa Hxb)
    as (l1 & l2 & f & E1 & E2 & Hfirst & _ & Hfind & _).
  assert (f ∈ chain doc a) as Hfa.
  { rewrite E1. apply elem_of_app. right. by left. }
  assert (f ∈ chain doc b) as Hfb.
  { rewrite E2. apply elem_of_app. right. by left. }
  pose proof (chain_lt doc Hwf a f Ha Hfa) as Hf.
  exists (Relationship.mk a b (reverse (chain doc f)) (reverse l1) (reverse l2)), f.
  split_and!; [|  |done|done|].
  - unfold Relationship.init. by rewrite Hfind.
  - unfold Relationship.forking_node, chain. simpl.
    by rewrite reverse_cons, last_snoc.
  - intros d Hfd [Hda Hdb]. rewrite E1 in Hda.
    apply elem_of_app in Hda as [Hd1|Hdf]; [by apply (Hfirst d)|].
    apply elem_of_cons in Hdf as [->|Hdf].
    + by apply (ancestors_irrefl doc Hwf f).
    + by apply (ancestors_asym doc Hwf f d).
Qed.

Lemma fork_is_lowest_common_ancestor_witness :
  ∃ r f, Relationship.init raise_doc 0 2 = inr r ∧
         Relationship.forking_node r = Some f ∧
         f ∈ chain raise_doc 0 ∧ f ∈ chain raise_doc 2 ∧
         (∀ d, f ∈ ancestors raise_doc d →
               ¬ (d ∈ chain raise_doc 0 ∧ d ∈ chain raise_doc 2)).
Proof.
  apply (fork_is_lowest_common_ancestor raise_doc 0 2).
  - apply wf_docb_sound. reflexivity.
  - simpl. lia.
  - simpl. lia.
  - reflexivity.
Defined.

(** C5: for two tokens of one well-formed tree, the relationship of [a] and
    [b] and that of [b] and [a] have the same fork and the same common
    ancestors, and their branches are exchanged. *)
Theorem find_relationship_symmetric (doc : Doc) (a b : Token) :
  wf_doc doc → a < length doc → b < length doc → same_tree doc a b →
  ∃ r r', Relationship.init doc a b = inr r ∧
          Relationship.init doc b a = inr r' ∧
          Relationship.forking_node r = Relationship.forking_node r' ∧
          Relationship.common_ancestors r = Relationship.common_ancestors r' ∧
          Relationship.branch1 r = Relationship.branch2 r' ∧
          Relationship.branch2 r = Relationship.branch1 r'.
Proof.
  intros Hwf Ha Hb Hsame.
  destruct (same_tree_shared doc a b Hsame) as (x & Hxa & Hxb).
  destruct (find_relationship_wf doc Hwf a b x Ha Hb Hxa Hxb)
    as (l1 & l2 & f & _ & _ & _ & _ & Hab & Hba).
  exists (Relationship.mk a b (reverse (chain doc f)) (reverse l1) (reverse l2)),
         (Relationship.mk b a (reverse (chain doc f)) (reverse l2) (reverse l1)).
  unfold Relationship.init. rewrite Hab, Hba. done.
Qed.

Lemma find_relationship_symmetric_witness :
  ∃ r r', Relationship.init raise_doc 0 2 = inr r ∧
          Relationship.init raise_doc 2 0 = inr r' ∧
          Relationship.forking_node r = Relationship.forking_node r' ∧
          Relationship.common_ancestors r = Relationship.common_ancestors r' ∧
          Relationship.branch1 r = Relationship.branch2 r' ∧
          Relationship.branch2 r = Relationship.branch1 r'.
Proof.
  apply (find_relationship_symmetric raise_doc 0 2).
  - apply wf_docb_sound. reflexivity.
  - simpl. lia.
  - simpl. lia.
  - reflexivity.
Defined.

(** C8: for two tokens of a well-formed document the comparison of the two
    chains from the fork up to the root never fails: the ambiguity error is
    not raised, and tokens of one tree always get their relationship.  When
    the error is raised, the document is not well formed and the two chains
    differ above their first shared token. *)
Theorem ambiguity_only_when_malformed (doc : Doc) (a b : Token) :
  a < length doc → b < length doc →
  (wf_doc doc → Relationship.init doc a b ≠ inl ValueError_ambiguity) ∧
  (wf_doc doc → same_tree doc a b → ∃ r, Relationship.init doc a b = inr r) ∧
  (Relationship.init doc a b = inl ValueError_ambiguity →
     ¬ wf_doc doc ∧
     ∃ l1 l2 s1 s2 f,
       chain doc a = l1 ++ f :: s1 ∧ chain doc b = l2 ++ f :: s2 ∧
       (∀ y, y ∈ l1 → y ∉ chain doc b) ∧ (f ∉ l2) ∧ (s1 ≠ s2)).
Proof.
  intros Ha Hb.
  assert (wf_doc doc → Relationship.init doc a b ≠ inl ValueError_ambiguity) as Hno.
  { intros Hwf Hamb.
    destruct (decide (Exists (λ x, x ∈ chain doc b) (chain doc a)))
      as [(x & Hxa & Hxb)%Exists_exists|Hnone].
    - destruct (find_relationship_wf doc Hwf a b x Ha Hb Hxa Hxb)
        as (l1 & l2 & f & _ & _ & _ & _ & Hab & _).
      unfold Relationship.init in Hamb. by rewrite Hab in Hamb.
    - assert (Relationship.init doc a b = inl ValueError_unrelated) as Hu.
      { apply init_exn, fork_chains_unrelated. intros x Hxa Hxb.
        apply Hnone, Exists_exists. eauto. }
      congruence. }
  split_and!; [done| |].
  - intros Hwf Hsame.
    destruct (same_tree_shared doc a b Hsame) as (x & Hxa & Hxb).
    destruct (find_relationship_wf doc Hwf a b x Ha Hb Hxa Hxb)
      as (l1 & l2 & f & _ & _ & _ & _ & Hab & _).
    eexists. unfold Relationship.init. by rewrite Hab.
  - intros Hamb. split; [by intros Hwf; apply Hno|].
    destruct (decide (Exists (λ x, x ∈ chain doc b) (chain doc a)))
      as [(x & Hxa & Hxb)%Exists_exists|Hnone].
    + destruct (shared_split _ _ _ Hxa Hxb)
        as (l1 & l2 & s1 & s2 & f & E1 & E2 & Hfirst & Hf).
      exists l1, l2, s1, s2, f. split_and!; [done..|].
      unfold Relationship.init, Relationship.find_relationship in Hamb.
      simpl in Hamb.
      change (a :: ancestors doc a) with (chain doc a) in Hamb.
      change (b :: ancestors doc b) with (chain doc b) in Hamb.
      rewrite (fork_chains_split _ _ _ _ _ _ _ E1 E2 Hfirst Hf) in Hamb.
      case_decide; [congruence|done].
    + assert (Relationship.init doc a b = inl ValueError_unrelated) as Hu.
      { apply init_exn, fork_chains_unrelated. intros x Hxa Hxb.
        apply Hnone, Exists_exists. eauto. }
      congruence.
Qed.

Lemma ambiguity_only_when_malformed_witness :
  Relationship.init raise_doc 0 2 ≠ inl ValueError_ambiguity ∧
  ¬ wf_doc cyclic_doc.
Proof.
  split.
  - apply (proj1 (ambiguity_only_when_malformed raise_doc 0 2
                    ltac:(simpl; lia) ltac:(simpl; lia))).
    apply wf_docb_sound. reflexivity.
  - apply (proj2 (proj2 (ambiguity_only_when_malformed cyclic_doc 0 1
                           ltac:(simpl; lia) ltac:(simpl; lia)))).
    reflexivity.
Defined.

(** ** Children, branches and descent paths *)

Section Matcher.
Variable doc : Doc.

Lemma elem_of_children node child :
  child ∈ children doc node ↔ parent doc child = Some node.
Proof.
  unfold children. rewrite list_elem_of_filter, elem_of_seq.
  split; [by intros [? _]|]. intros Hp. split; [done|].
  apply parent_lt in Hp. lia.
Qed.

Lemma children_NoDup node : NoDup (children doc node).
Proof. unfold children. apply NoDup_filter, NoDup_seq. Qed.

(** The early return of [follow_branch] on an empty list of matches agrees
    with the sum over that list. *)
Lemma follow_branch_cons node b0 rest :
  follow_branch doc node (b0 :: rest) =
  sum_list (map (λ m, follow_branch doc m rest)
                (filter (λ child, match_node_pattern doc child b0 = true)
                        (children doc node))).
Proof. simpl. by destruct (filter _ _). Qed.

Lemma elem_of_branch_paths node branch path :
  path ∈ branch_paths doc node branch ↔ descent_path doc node branch path.
Proof.
  revert node path. induction branch as [|b0 rest IH]; intros node path; simpl.
  - rewrite list_elem_of_singleton. split; [intros ->; constructor|].
    by inversion 1.
  - rewrite list_elem_of_bind. split.
    + intros (child & Hpath & Hchild).
      apply list_elem_of_filter in Hchild as [Hm Hc].
      apply list_elem_of_fmap in Hpath as (path' & -> & Hpath').
      constructor; [by apply elem_of_children|done|by apply IH].
    + inversion 1 as [|? ? ? child path' Hp Hm Hpath']; subst.
      exists child. split.
      * apply list_elem_of_fmap. exists path'. split; [done|by apply IH].
      * apply list_elem_of_filter. split; [done|by apply elem_of_children].
Qed.

Lemma branch_paths_NoDup node branch : NoDup (branch_paths doc node branch).
Proof.
  revert node. induction branch as [|b0 rest IH]; intros node; simpl.
  - apply NoDup_singleton.
  - apply NoDup_bind.
    + intros c1 c2 path _ _ H1 H2.
      apply list_elem_of_fmap in H1 as (p1 & -> & _).
      apply list_elem_of_fmap in H2 as (p2 & [= -> _] & _). done.
    + intros c _. apply NoDup_fmap_2; [|done]. by intros ?? [= ->].
    + apply NoDup_filter, children_NoDup.
Qed.

(** [follow_branch] counts the descent paths. *)
Lemma follow_branch_length node branch :
  follow_branch doc node branch = length (branch_paths doc node branch).
Proof.
  revert node. induction branch as [|b0 rest IH]; intros node; [done|].
  rewrite follow_branch_cons. simpl.
  induction (filter _ (children doc node)) as [|c cs IHcs]; [done|].
  csimpl. rewrite length_app, length_fmap, IH, <-IHcs. done.
Qed.

Lemma foldl_add_fork_matches pattern matches forks :
  foldl (add_fork_matches doc pattern) matches forks =
  matches + sum_list (map (λ f, follow_branch doc f (branch1 pattern)
                               * follow_branch doc f (branch2 pattern)) forks).
Proof.
  revert matches. induction forks as [|f forks IH]; intros matches; simpl.
  - lia.
  - rewrite IH. unfold add_fork_matches. lia.
Qed.

End Matcher.

(** ** The search below a node *)

(** Lists found for the members of a family, put together. *)
Lemma concat_family {A B} (Q : A → B → Prop) (cs : list A) (found : list (list B)) :
  Forall2 (λ c lc, NoDup lc ∧ ∀ x, x ∈ lc ↔ Q c x) cs found →
  NoDup cs →
  (∀ c1 c2 x, c1 ∈ cs → c2 ∈ cs → Q c1 x → Q c2 x → c1 = c2) →
  NoDup (concat found) ∧ ∀ x, x ∈ concat found ↔ ∃ c, c ∈ cs ∧ Q c x.
Proof.
  induction 1 as [|c lc cs found [Hnd Hmem] HF IH]; intros Hcs Hdisj; simpl.
  - split; [constructor|]. intros x. split; [by intros ?%elem_of_nil|].
    by intros (c & ?%elem_of_nil & _).
  - apply NoDup_cons in Hcs as [Hc Hcs].
    destruct IH as [IHnd IHmem]; [done|..].
    { intros c1 c2 x H1 H2. apply Hdisj; by right. }
    split.
    + apply NoDup_app. split_and!; [done| |done].
      intros x Hx Hx'. apply Hmem in Hx. apply IHmem in Hx' as (c' & Hc' & Hq).
      assert (c = c') as <-; [|done].
      apply (Hdisj c c' x); [by left|by right|done..].
    + intros x. rewrite elem_of_app, Hmem, IHmem. split.
      * intros [Hq|(c' & Hc' & Hq)].
        -- exists c. split; [by left|done].
        -- exists c'. split; [by right|done].
      * intros (c' & [->|Hc']%elem_of_cons & Hq); [by left|right; eauto].
Qed.

Lemma Forall2_elem_impl {A B} (P Q : A → B → Prop) l k :
  Forall2 P l k → (∀ x y, x ∈ l → P x y → Q x y) → Forall2 Q l k.
Proof.
  induction 1 as [|x y l k HP HF IH]; intros Himpl; constructor.
  - apply Himpl; [by left|done].
  - apply IH. intros x' y' Hx'. apply Himpl. by right.
Qed.

Lemma ancestors_elem_lt (doc : Doc) x y : y ∈ ancestors doc x → x < length doc.
Proof.
  unfold ancestors. destruct (length doc) as [|n] eqn:E; simpl.
  - by intros ?%elem_of_nil.
  - destruct (parent doc x) eqn:Hp; [|by intros ?%elem_of_nil].
    intros _. rewrite <-E. by eapply parent_lt.
Qed.

Lemma ancestors_head (doc : Doc) c p s :
  ancestors doc c = p :: s → parent doc c = Some p.
Proof.
  unfold ancestors. destruct (length doc); simpl; [done|].
  destruct (parent doc c); [|done]. by intros [= -> _].
Qed.

Section Search.
Variable doc : Doc.
Hypothesis Hwf : wf_doc doc.

Lemma chain_elem_lt x y : y ∈ chain doc x → y < length doc → x < length doc.
Proof.
  intros [->|Hy]%elem_of_cons Hlt; [done|]. by eapply ancestors_elem_lt.
Qed.

Lemma chain_child c node : parent doc c = Some node → chain doc c = c :: chain doc node.
Proof. intros Hp. unfold chain. by rewrite (ancestors_parent doc Hwf c node Hp). Qed.

(** A token strictly below [node] lies below exactly one child of [node]. *)
Lemma below_child node x :
  x < length doc → node ∈ ancestors doc x →
  ∃ c, parent doc c = Some node ∧ c ∈ chain doc x.
Proof.
  intros Hx Hnode.
  destruct (ancestry_split doc _ _ _ (wf_ancestry doc Hwf x Hx) Hnode)
    as (l1 & l2 & Heq & _).
  assert (chain doc x = (x :: l1) ++ node :: l2) as Hchain.
  { unfold chain. by rewrite Heq. }
  destruct (exists_last (l:=x :: l1)) as (l1' & c & Hl1); [done|].
  rewrite Hl1, <-app_assoc in Hchain. simpl in Hchain.
  exists c. split.
  - pose proof (chain_app_inv doc Hwf _ _ _ _ Hx Hchain) as Hc.
    unfold chain in Hc. injection Hc as Hc. by eapply ancestors_head.
  - rewrite Hchain. apply elem_of_app. right. by left.
Qed.

Lemma child_unique c1 c2 node x :
  x < length doc →
  parent doc c1 = Some node → parent doc c2 = Some node →
  c1 ∈ chain doc x → c2 ∈ chain doc x → c1 = c2.
Proof.
  intros Hx Hp1 Hp2 H1 H2.
  destruct (chain_split doc Hwf x c1 Hx H1) as [l1 E1].
  destruct (chain_split doc Hwf x c2 Hx H2) as [l2 E2].
  rewrite (chain_child _ _ Hp1) in E1. rewrite (chain_child _ _ Hp2) in E2.
  pose proof (chain_NoDup doc Hwf x Hx) as Hnd.
  assert (chain doc x = (l1 ++ [c1]) ++ node :: ancestors doc node) as E1'.
  { by rewrite <-app_assoc. }
  assert (chain doc x = (l2 ++ [c2]) ++ node :: ancestors doc node) as E2'.
  { by rewrite <-app_assoc. }
  assert (node ∉ l1 ++ [c1]) as Hn1.
  { rewrite E1' in Hnd. apply NoDup_app in Hnd as (_ & Hd & _).
    intros Hin. apply (Hd _ Hin). by left. }
  assert (node ∉ l2 ++ [c2]) as Hn2.
  { rewrite E2' in Hnd. apply NoDup_app in Hnd as (_ & Hd & _).
    intros Hin. apply (Hd _ Hin). by left. }
  rewrite E1' in E2'.
  destruct (app_cons_first_inj _ _ _ _ _ Hn1 Hn2 E2') as [Heq _].
  by apply app_inj_tail in Heq as [_ ->].
Qed.

(** With enough fuel the search returns, and it returns each token of the
    subtree of [node] that matches the pattern, once. *)
Lemma search_sentence_for_node_spec fuel node pat :
  node < length doc → length doc ≤ fuel + length (ancestors doc node) →
  ∃ found,
    search_sentence_for_node fuel doc node pat = Some found ∧
    NoDup found ∧
    ∀ x, x ∈ found ↔
         in_subtree doc node x ∧ match_node_pattern doc x pat = true.
Proof.
  revert node. induction fuel as [|fuel IH]; intros node Hnode Hfuel.
  { pose proof (ancestry_length doc _ _ (wf_ancestry doc Hwf node Hnode)). lia. }
  simpl.
  assert (∀ c, c ∈ children doc node →
    ∃ lc, search_sentence_for_node fuel doc c pat = Some lc ∧ NoDup lc ∧
          ∀ x, x ∈ lc ↔ in_subtree doc c x ∧ match_node_pattern doc x pat = true)
    as Hchildren.
  { intros c Hc%elem_of_children. apply IH; [by eapply parent_lt|].
    rewrite (ancestors_parent doc Hwf c node Hc). simpl. lia. }
  destruct (mapM_is_Some_2
              (λ child, search_sentence_for_node fuel doc child pat)
              (children doc node)) as [found Hfound].
  { apply Forall_forall. intros c Hc.
    destruct (Hchildren c Hc) as (lc & Hlc & _).
    unfold compose. rewrite Hlc. by eexists. }
  rewrite Hfound. simpl. eexists. split; [done|].
  apply mapM_Some_1 in Hfound.
  assert (Forall2 (λ c lc, NoDup lc ∧
            ∀ x, x ∈ lc ↔ in_subtree doc c x ∧ match_node_pattern doc x pat = true)
            (children doc node) found) as HF.
  { eapply Forall2_elem_impl; [done|].
    intros c lc Hc Hlc. cbv beta in Hlc.
    destruct (Hchildren c Hc) as (lc' & Hlc' & Hprops).
    rewrite Hlc in Hlc'. by injection Hlc' as <-. }
  apply concat_family in HF as [Hnd Hmem]; [|apply children_NoDup|].
  2:{ intros c1 c2 x Hc1%elem_of_children Hc2%elem_of_children [H1 _] [H2 _].
      unfold in_subtree in *.
      eapply (child_unique c1 c2 node x); try done.
      eapply chain_elem_lt; [done|]. by eapply parent_lt. }
  assert (∀ x, x ∈ concat found → node ∈ ancestors doc x) as Hbelow.
  { intros x (c & Hc%elem_of_children & Hsub & _)%Hmem. unfold in_subtree in Hsub.
    assert (x < length doc) as Hx.
    { eapply chain_elem_lt; [done|]. by eapply parent_lt. }
    destruct (chain_split doc Hwf x c Hx Hsub) as [l1 E].
    rewrite (chain_child _ _ Hc) in E.
    assert (node ∈ chain doc x) as [Heq|Hin]%elem_of_cons; [| |done].
    { rewrite E. apply elem_of_app. right. right. by left. }
    exfalso. subst x. unfold chain in Hsub.
    apply elem_of_cons in Hsub as [->|Hsub].
    - apply (ancestors_irrefl doc Hwf node Hx).
      rewrite (ancestors_parent doc Hwf _ _ Hc). by left.
    - apply (ancestors_asym doc Hwf node c Hx Hsub).
      rewrite (ancestors_parent doc Hwf _ _ Hc). by left. }
  split.
  - apply NoDup_app. split_and!; [| |done].
    + destruct (match_node_pattern doc node pat); [apply NoDup_singleton|constructor].
    + intros x Hx Hx'. apply Hbelow in Hx'.
      destruct (match_node_pattern doc node pat); [|by apply elem_of_nil in Hx].
      apply list_elem_of_singleton in Hx as ->.
      by apply (ancestors_irrefl doc Hwf node Hnode).
  - intros x. rewrite elem_of_app. split.
    + intros [Hx|Hx].
      * destruct (match_node_pattern doc node pat) eqn:Hm;
          [|by apply elem_of_nil in Hx].
        apply list_elem_of_singleton in Hx as ->. split; [by left|done].
      * split; [right; by apply Hbelow|]. by apply Hmem in Hx as (c & _ & _ & Hm).
    + intros [[->|Hsub]%elem_of_cons Hm].
      * left. rewrite Hm. by left.
      * right. apply Hmem.
        pose proof (ancestors_elem_lt doc _ _ Hsub) as Hx.
        destruct (below_child node x Hx Hsub) as (c & Hc & Hcx).
        exists c. split; [by apply elem_of_children|]. done.
Qed.

End Search.

(** ** Properties of the matcher *)

Lemma match_branch_spec doc node : match_node_pattern doc node (branch_spec doc node) = true.
Proof. unfold match_node_pattern, branch_spec. simpl. by rewrite !bool_decide_eq_true_2. Qed.

Lemma match_fork_spec doc node : match_node_pattern doc node (fork_spec doc node) = true.
Proof. unfold match_node_pattern, fork_spec. simpl. by rewrite !bool_decide_eq_true_2. Qed.

(** The part of a chain below a token, read downwards, is a descent path
    from that token for the specs taken from its own tokens. *)
Lemma chain_descent_path doc a l1 f :
  wf_doc doc → a < length doc → chain doc a = l1 ++ chain doc f →
  descent_path doc f (map (branch_spec doc) (reverse l1)) (reverse l1).
Proof.
  intros Hwf Ha. revert f. induction l1 as [|c l1 IH] using rev_ind; intros f E.
  - constructor.
  - rewrite reverse_snoc. simpl. rewrite <-app_assoc in E. simpl in E.
    pose proof (chain_app_inv doc Hwf _ _ _ _ Ha E) as Hc.
    constructor.
    + unfold chain in Hc. injection Hc as Hc. by eapply ancestors_head.
    + apply match_branch_spec.
    + apply IH. by rewrite Hc.
Qed.

(** C1: on a well-formed sentence tree the search for [pattern] returns,
    and its result is the sum, over the tokens of the tree that match the
    common-ancestor spec (each found once by the search from the root), of
    the number of descent paths satisfying [branch1] times the number of
    descent paths satisfying [branch2]. *)
Theorem count_matches_sum (sentence : Sentence) (pat : pattern) (fuel : nat) :
  wf_doc (sent_doc sentence) →
  root sentence < length (sent_doc sentence) →
  length (sent_doc sentence) ≤ fuel →
  ∃ forks,
    search_sentence_for_node fuel (sent_doc sentence) (root sentence)
                             (common_ancestor pat) = Some forks ∧
    NoDup forks ∧
    (∀ x, x ∈ forks ↔
          in_subtree (sent_doc sentence) (root sentence) x ∧
          match_node_pattern (sent_doc sentence) x (common_ancestor pat) = true) ∧
    search_sentence_for_pattern fuel sentence pat =
      Some (sum_list (map (λ fork,
              length (branch_paths (sent_doc sentence) fork (branch1 pat))
              * length (branch_paths (sent_doc sentence) fork (branch2 pat)))
            forks)) ∧
    (∀ fork branch,
       follow_branch (sent_doc sentence) fork branch
         = length (branch_paths (sent_doc sentence) fork branch) ∧
       NoDup (branch_paths (sent_doc sentence) fork branch) ∧
       ∀ path, path ∈ branch_paths (sent_doc sentence) fork branch ↔
               descent_path (sent_doc sentence) fork branch path).
Proof.
  destruct sentence as [doc r]. simpl. intros Hwf Hr Hfuel.
  destruct (search_sentence_for_node_spec doc Hwf fuel r (common_ancestor pat) Hr)
    as (forks & Hsearch & Hnd & Hmem); [lia|].
  exists forks. split_and!; [done..| |].
  - unfold search_sentence_for_pattern. simpl. rewrite Hsearch. simpl.
    rewrite foldl_add_fork_matches. simpl. f_equal. f_equal.
    apply map_ext. intros fork. by rewrite !follow_branch_length.
  - intros fork branch. split_and!.
    + apply follow_branch_length.
    + apply branch_paths_NoDup.
    + intros path. apply elem_of_branch_paths.
Qed.

Lemma count_matches_sum_witness :
  search_sentence_for_pattern 4 (mkSentence two_objects_doc 1) raise_pattern = Some 2.
Proof.
  destruct (count_matches_sum (mkSentence two_objects_doc 1) raise_pattern 4)
    as (forks & Hsearch & _ & _ & Hsum & _).
  - apply wf_docb_sound. reflexivity.
  - simpl. lia.
  - simpl. lia.
  - rewrite Hsum. vm_compute in Hsearch. injection Hsearch as <-. reflexivity.
Defined.

(** C4: [follow_branch] returns 1 on an empty branch and 0 on a branch whose
    first spec no child of the node matches; such a fork adds nothing to the
    count of the pattern, whatever [branch2] is. *)
Theorem follow_branch_boundary (doc : Doc) (node : Token) :
  follow_branch doc node [] = 1 ∧
  (∀ b0 rest,
     (∀ child, child ∈ children doc node → match_node_pattern doc child b0 = false) →
     follow_branch doc node (b0 :: rest) = 0) ∧
  (∀ pat b0 rest matches,
     branch1 pat = b0 :: rest →
     (∀ child, child ∈ children doc node → match_node_pattern doc child b0 = false) →
     add_fork_matches doc pat matches node = matches).
Proof.
  assert (∀ b0 rest,
     (∀ child, child ∈ children doc node → match_node_pattern doc child b0 = false) →
     follow_branch doc node (b0 :: rest) = 0) as Hzero.
  { intros b0 rest Hnone. simpl.
    assert (filter (λ child, match_node_pattern doc child b0 = true)
                   (children doc node) = []) as ->; [|done].
    induction (children doc node) as [|c cs IH]; [done|].
    rewrite filter_cons, decide_False.
    - apply IH. intros child Hc. apply Hnone. by right.
    - rewrite Hnone; [done|by left]. }
  split_and!; [done|done|].
  intros pat b0 rest matches Hb1 Hnone. unfold add_fork_matches.
  rewrite Hb1, (Hzero b0 rest Hnone). lia.
Qed.

Lemma follow_branch_boundary_witness :
  follow_branch raise_doc 1 [[(pos, "VERB")]] = 0 ∧
  follow_branch raise_doc 1 [[(pos, "NOUN"); (dep, "dobj")]] = 1 ∧
  add_fork_matches raise_doc
    (mkPattern [] [[(pos, "VERB")]] [[(pos, "NOUN"); (dep, "dobj")]]) 5 1 = 5.
Proof.
  destruct (follow_branch_boundary raise_doc 1) as (_ & Hzero & Hadd).
  assert (∀ child, child ∈ children raise_doc 1 →
                   match_node_pattern raise_doc child [(pos, "VERB")] = false) as Hnone.
  { intros child Hc. vm_compute in Hc.
    repeat (apply elem_of_cons in Hc as [->|Hc]); [done..|].
    by apply elem_of_nil in Hc. }
  split_and!.
  - by apply Hzero.
  - reflexivity.
  - by apply (Hadd _ [(pos, "VERB")] []).
Defined.

(** What [matching_pattern] builds, field by field, as the program is
    written: both branch specs are taken from [branch1]. *)
Lemma matching_pattern_fields (doc : Doc) (self : Relationship.t) fork :
  Relationship.forking_node self = Some fork →
  Relationship.matching_pattern doc self =
    Some (mkPattern (fork_spec doc fork)
                    (map (branch_spec doc) (Relationship.branch1 self))
                    (map (branch_spec doc) (Relationship.branch1 self))).
Proof. intros Hfork. unfold Relationship.matching_pattern. by rewrite Hfork. Qed.

(** C2 at the scenario of the specification: for the relationship of A and
    B under the root, the fork spec and the [branch1] spec are those of the
    relationship, but the [branch2] spec is the spec of [branch1] (A,
    nsubj), not that of [branch2] (B, dobj). *)
Theorem matching_pattern_branch2_defect :
  ∃ rel pat,
    Relationship.init raise_doc 0 2 = inr rel ∧
    Relationship.branch1 rel = [0] ∧ Relationship.branch2 rel = [2] ∧
    Relationship.matching_pattern raise_doc rel = Some pat ∧
    common_ancestor pat = [(pos, "VERB"); (lemma, "raise")] ∧
    branch1 pat = map (branch_spec raise_doc) (Relationship.branch1 rel) ∧
    branch2 pat = [[(pos, "NOUN"); (dep, "nsubj")]] ∧
    map (branch_spec raise_doc) (Relationship.branch2 rel)
      = [[(pos, "NOUN"); (dep, "dobj")]] ∧
    branch2 pat ≠ map (branch_spec raise_doc) (Relationship.branch2 rel).
Proof.
  eexists _, _. split_and!; try reflexivity. discriminate.
Qed.

(** C6: for two tokens of one well-formed sentence tree, the pattern taken
    from their relationship is found at least once in that sentence: the
    search returns a count of 1 or more. *)
Theorem self_match (doc : Doc) (a b : Token) (fuel : nat) :
  wf_doc doc → a < length doc → b < length doc → same_tree doc a b →
  length doc ≤ fuel →
  ∃ rel pat r n,
    Relationship.init doc a b = inr rel ∧
    Relationship.matching_pattern doc rel = Some pat ∧
    root_of doc a = Some r ∧
    search_sentence_for_pattern fuel (mkSentence doc r) pat = Some n ∧
    1 ≤ n.
Proof.
  intros Hwf Ha Hb Hsame Hfuel.
  destruct (same_tree_shared doc a b Hsame) as (x & Hxa & Hxb).
  destruct (find_relationship_wf doc Hwf a b x Ha Hb Hxa Hxb)
    as (l1 & l2 & f & E1 & _ & _ & _ & Hab & _).
  set (rel := Relationship.mk a b (reverse (chain doc f)) (reverse l1) (reverse l2)).
  assert (Relationship.forking_node rel = Some f) as Hfork.
  { unfold rel, Relationship.forking_node, chain. simpl.
    by rewrite reverse_cons, last_snoc. }
  destruct (root_of_elem doc a) as (r & Hroot & Hra).
  assert (f ∈ chain doc a) as Hfa.
  { rewrite E1. apply elem_of_app. right. by left. }
  assert (r ∈ chain doc f) as Hrf.
  { destruct (root_of_elem doc f) as (r' & Hroot' & Hrf).
    rewrite (root_of_chain doc Hwf a f Ha Hfa) in Hroot'. congruence. }
  pose proof (chain_lt doc Hwf a r Ha Hra) as Hr.
  set (pat := mkPattern (fork_spec doc f)
                (map (branch_spec doc) (reverse l1))
                (map (branch_spec doc) (reverse l1))).
  destruct (search_sentence_for_node_spec doc Hwf fuel r (fork_spec doc f) Hr)
    as (forks & Hsearch & _ & Hmem); [lia|].
  assert (f ∈ forks) as Hf.
  { apply Hmem. split; [done|apply match_fork_spec]. }
  assert (1 ≤ follow_branch doc f (map (branch_spec doc) (reverse l1))) as Hone.
  { rewrite follow_branch_length.
    pose proof (chain_descent_path doc a l1 f Hwf Ha E1) as Hpath.
    apply elem_of_branch_paths in Hpath.
    destruct (branch_paths doc f _); [by apply elem_of_nil in Hpath|simpl; lia]. }
  exists rel, pat, r. eexists. split_and!.
  - unfold Relationship.init. by rewrite Hab.
  - by rewrite (matching_pattern_fields doc rel f Hfork).
  - done.
  - unfold search_sentence_for_pattern. simpl. rewrite Hsearch. simpl.
    by rewrite foldl_add_fork_matches.
  - simpl.
    set (g := λ fork, follow_branch doc fork (map (branch_spec doc) (reverse l1))
                      * follow_branch doc fork (map (branch_spec doc) (reverse l1))).
    pose proof (sum_list_with_in (g f) id (g <$> forks)
                  (list_elem_of_fmap_2 g forks f Hf)) as Hle.
    change (g <$> forks) with (map g forks) in Hle.
    unfold g at 1 in Hle. simpl in Hle. nia.
Qed.

Lemma self_match_witness :
  ∃ rel pat r n,
    Relationship.init raise_doc 0 2 = inr rel ∧
    Relationship.matching_pattern raise_doc rel = Some pat ∧
    root_of raise_doc 0 = Some r ∧
    search_sentence_for_pattern 3 (mkSentence raise_doc r) pat = Some n ∧
    1 ≤ n.
Proof.
  apply (self_match raise_doc 0 2 3).
  - apply wf_docb_sound. reflexivity.
  - simpl. lia.
  - simpl. lia.
  - reflexivity.
  - simpl. lia.
Defined.

(** ** Isomorphic trees *)

Lemma sum_list_map {A} (g : A → nat) (l : list A) :
  sum_list (map g l) = sum_list_with g l.
Proof. induction l as [|x l IH]; simpl; [done|]. by rewrite IH. Qed.

Lemma sum_filter_fmap {A} (σ : A → A) (P1 P2 : A → Prop)
    `{∀ x, Decision (P1 x)} `{∀ x, Decision (P2 x)} (g1 g2 : A → nat) (l : list A) :
  (∀ x, x ∈ l → P2 (σ x) ↔ P1 x) →
  (∀ x, x ∈ l → g2 (σ x) = g1 x) →
  sum_list_with g2 (filter P2 (σ <$> l)) = sum_list_with g1 (filter P1 l).
Proof.
  induction l as [|x l IH]; intros HP Hg; [done|].
  rewrite fmap_cons, !filter_cons.
  assert (sum_list_with g2 (filter P2 (σ <$> l)) = sum_list_with g1 (filter P1 l))
    as IH'.
  { apply IH; intros y Hy; [apply HP|apply Hg]; by right. }
  destruct (decide (P2 (σ x))) as [H2|H2], (decide (P1 x)) as [H1|H1]; simpl.
  - rewrite IH', Hg; [done|by left].
  - exfalso. apply H1, HP; [by left|done].
  - exfalso. apply H2, HP; [by left|done].
  - done.
Qed.

Section Iso.
Variable σ : Token → Token.
Variables doc1 doc2 : Doc.
Hypothesis Hiso : tree_iso σ doc1 doc2.
Hypothesis Hwf : wf_doc doc1.

Lemma parent_range k p : parent doc1 k = Some p → p < length doc1.
Proof.
  intros Hp. pose proof (parent_lt _ _ _ Hp) as Hk.
  apply (chain_lt doc1 Hwf k p Hk). unfold chain.
  rewrite (ancestors_parent doc1 Hwf k p Hp). right. by left.
Qed.

(** Every token of [doc2] is the image of a token of [doc1]. *)
Lemma iso_surj j : j < length doc2 → ∃ i, i < length doc1 ∧ σ i = j.
Proof.
  intros Hj.
  assert (σ <$> seq 0 (length doc1) ≡ₚ seq 0 (length doc2)) as Hperm.
  { apply submseteq_length_Permutation.
    - apply NoDup_submseteq.
      + apply NoDup_fmap_2_strong; [|apply NoDup_seq].
        intros x y Hx%elem_of_seq Hy%elem_of_seq.
        apply (iso_inj _ _ _ Hiso); lia.
      + intros y (x & -> & Hx%elem_of_seq)%list_elem_of_fmap.
        apply elem_of_seq. pose proof (iso_lt _ _ _ Hiso x). lia.
    - rewrite length_fmap, !length_seq. by rewrite (iso_length _ _ _ Hiso). }
  assert (j ∈ σ <$> seq 0 (length doc1)) as Hin.
  { rewrite Hperm. apply elem_of_seq. lia. }
  apply list_elem_of_fmap in Hin as (i & -> & Hi%elem_of_seq).
  exists i. split; [lia|done].
Qed.

Lemma iso_ancestry i l : ancestry doc1 i l → ancestry doc2 (σ i) (σ <$> l).
Proof.
  induction 1 as [i Hi Hp|i p l Hp H IH].
  - constructor; [by apply (iso_lt _ _ _ Hiso)|].
    by rewrite (iso_parent _ _ _ Hiso i Hi), Hp.
  - rewrite fmap_cons. econstructor; [|done].
    rewrite (iso_parent _ _ _ Hiso i) by (by eapply parent_lt). by rewrite Hp.
Qed.

Lemma iso_wf : wf_doc doc2.
Proof.
  intros j Hj. destruct (iso_surj j Hj) as (i & Hi & <-).
  destruct (Hwf i Hi) as [l Hl]. exists (σ <$> l). by apply iso_ancestry.
Qed.

Lemma iso_chain i : i < length doc1 → chain doc2 (σ i) = σ <$> chain doc1 i.
Proof.
  intros Hi. unfold chain. rewrite fmap_cons. f_equal.
  apply ancestry_ancestors, iso_ancestry. by apply wf_ancestry.
Qed.

Lemma iso_parent_iff k i :
  k < length doc1 → i < length doc1 →
  parent doc2 (σ k) = Some (σ i) ↔ parent doc1 k = Some i.
Proof.
  intros Hk Hi. rewrite (iso_parent _ _ _ Hiso k Hk).
  destruct (parent doc1 k) as [p|] eqn:Hp; simpl; [|done].
  split; intros [= Heq]; [|by rewrite Heq].
  f_equal. apply (iso_inj _ _ _ Hiso); [by eapply parent_range|done..].
Qed.

Lemma iso_children i :
  i < length doc1 → children doc2 (σ i) ≡ₚ σ <$> children doc1 i.
Proof.
  intros Hi. apply NoDup_Permutation.
  - apply children_NoDup.
  - apply NoDup_fmap_2_strong; [|apply children_NoDup].
    intros x y Hx%elem_of_children Hy%elem_of_children.
    apply (iso_inj _ _ _ Hiso); by eapply parent_lt.
  - intros j. rewrite elem_of_children, list_elem_of_fmap. split.
    + intros Hp. destruct (iso_surj j) as (k & Hk & <-); [by eapply parent_lt|].
      exists k. split; [done|]. by apply elem_of_children, iso_parent_iff.
    + intros (k & -> & Hp%elem_of_children).
      apply iso_parent_iff; [by eapply parent_lt|done..].
Qed.

Lemma iso_match i spec :
  i < length doc1 → label_spec spec →
  match_node_pattern doc2 (σ i) spec = match_node_pattern doc1 i spec.
Proof.
  intros Hi. unfold match_node_pattern.
  induction 1 as [|[a v] spec Ha Hspec IH]; [done|]. simpl in *.
  by rewrite IH, (iso_labels _ _ _ Hiso i a Hi Ha).
Qed.

Lemma iso_follow_branch branch :
  Forall label_spec branch →
  ∀ i, i < length doc1 →
       follow_branch doc2 (σ i) branch = follow_branch doc1 i branch.
Proof.
  induction 1 as [|b0 rest Hb0 Hrest IH]; intros i Hi; [done|].
  rewrite !follow_branch_cons.
  rewrite !sum_list_map, (iso_children i Hi).
  apply sum_filter_fmap.
  - intros c Hc%elem_of_children. rewrite iso_match; [done| |done].
    by eapply parent_lt.
  - intros c Hc%elem_of_children. simpl. apply IH. by eapply parent_lt.
Qed.

End Iso.

Lemma sum_fmap_ext {A} (σ : A → A) (g1 g2 : A → nat) (l : list A) :
  (∀ x, x ∈ l → g2 (σ x) = g1 x) →
  sum_list_with g2 (σ <$> l) = sum_list_with g1 l.
Proof.
  induction l as [|x l IH]; intros Hg; [done|].
  rewrite fmap_cons. simpl. rewrite IH, Hg; [done|by left|].
  intros y Hy. apply Hg. by right.
Qed.

Lemma NoDup_fmap_inj_on {A B} (f : A → B) (l : list A) x y :
  NoDup (f <$> l) → x ∈ l → y ∈ l → f x = f y → x = y.
Proof.
  induction l as [|z l IH]; [by intros _ ?%elem_of_nil|].
  rewrite fmap_cons, NoDup_cons. intros [Hz Hnd] Hx Hy Heq.
  apply elem_of_cons in Hx as [->|Hx]; apply elem_of_cons in Hy as [->|Hy].
  - done.
  - exfalso. apply Hz. rewrite Heq. by apply list_elem_of_fmap_2.
  - exfalso. apply Hz. rewrite <-Heq. by apply list_elem_of_fmap_2.
  - by apply IH.
Qed.

Lemma tree_isob_sound σ doc1 doc2 : tree_isob σ doc1 doc2 = true → tree_iso σ doc1 doc2.
Proof.
  unfold tree_isob. rewrite !andb_true_iff, !bool_decide_eq_true, forallb_forall.
  intros [[Hlen Hnd] Hall].
  assert (∀ i, i < length doc1 →
    σ i < length doc2 ∧ parent doc2 (σ i) = σ <$> parent doc1 i ∧
    ∀ a, a ≠ orth → getattr doc2 (σ i) a = getattr doc1 i a) as Hall'.
  { intros i Hi. specialize (Hall i).
    rewrite <-list_elem_of_In, elem_of_seq in Hall. specialize (Hall ltac:(lia)).
    rewrite !andb_true_iff, !bool_decide_eq_true, forallb_forall in Hall.
    destruct Hall as [[Hlt Hp] Hattr]. split_and!; [done..|].
    intros a Ha. specialize (Hattr a). rewrite bool_decide_eq_true in Hattr.
    apply Hattr. destruct a; simpl; tauto. }
  constructor; [done|..].
  - intros i Hi. by apply Hall'.
  - intros i j Hi Hj. apply (NoDup_fmap_inj_on _ _ _ _ Hnd); apply elem_of_seq; lia.
  - intros i Hi. by apply Hall'.
  - intros i a Hi Ha. by apply Hall'.
Qed.

(** Changing the literal text of the tokens gives an isomorphic tree. *)
Lemma rename_orth_iso (f : string → string) (doc : Doc) :
  tree_iso id doc (rename_orth f doc).
Proof.
  assert (∀ i, rename_orth f doc !! i
    = (λ t, mkTokenC (f (orth_ t)) (lemma_ t) (pos_ t) (dep_ t) (head t)) <$> doc !! i)
    as Hlookup.
  { intros i. unfold rename_orth. apply list_lookup_fmap. }
  constructor.
  - unfold rename_orth. by rewrite length_map.
  - intros i Hi. unfold rename_orth. by rewrite length_map.
  - done.
  - intros i _. change (id i) with i. unfold parent, Token. rewrite Hlookup.
    destruct (doc !! i) as [t|]; [|reflexivity]. simpl. by destruct (head t).
  - intros i a _ Ha. change (id i) with i. unfold getattr, Token. rewrite Hlookup.
    destruct (doc !! i) as [t|]; [|reflexivity]. simpl. by destruct a.
Qed.

(** C9: for every pattern (its specs name [pos], [dep] and [lemma], as the
    specs of every extracted pattern do) and every two well-formed sentence
    trees that correspond token by token with the same head links and the
    same [pos], [dep] and [lemma] labels (the literal text may differ), the
    search returns the same count on both: matching never reads the literal
    text. *)
Theorem count_matches_label_invariant
    (σ : Token → Token) (doc1 doc2 : Doc) (r : Token) (pat : pattern) (fuel : nat) :
  wf_doc doc1 → tree_iso σ doc1 doc2 → r < length doc1 →
  label_pattern pat → length doc1 ≤ fuel →
  ∃ n, search_sentence_for_pattern fuel (mkSentence doc1 r) pat = Some n ∧
       search_sentence_for_pattern fuel (mkSentence doc2 (σ r)) pat = Some n.
Proof.
  intros Hwf Hiso Hr (Hanc & Hb1 & Hb2) Hfuel.
  pose proof (iso_wf σ doc1 doc2 Hiso Hwf) as Hwf2.
  pose proof (iso_lt _ _ _ Hiso r Hr) as Hr2.
  destruct (search_sentence_for_node_spec doc1 Hwf fuel r (common_ancestor pat) Hr)
    as (forks1 & Hsearch1 & Hnd1 & Hmem1); [lia|].
  destruct (search_sentence_for_node_spec doc2 Hwf2 fuel (σ r) (common_ancestor pat) Hr2)
    as (forks2 & Hsearch2 & Hnd2 & Hmem2).
  { rewrite <-(iso_length _ _ _ Hiso). lia. }
  assert (∀ x, x ∈ forks1 → x < length doc1) as Hrange.
  { intros x [Hsub _]%Hmem1. by eapply chain_elem_lt. }
  assert (forks2 ≡ₚ σ <$> forks1) as Hperm.
  { apply NoDup_Permutation; [done|..].
    - apply NoDup_fmap_2_strong; [|done].
      intros x y Hx Hy. apply (iso_inj _ _ _ Hiso); by apply Hrange.
    - intros y. rewrite Hmem2, list_elem_of_fmap. unfold in_subtree. split.
      + intros [Hsub Hm].
        destruct (iso_surj σ doc1 doc2 Hiso y) as (x & Hx & <-).
        { by eapply chain_elem_lt. }
        exists x. split; [done|]. apply Hmem1.
        rewrite (iso_match σ doc1 doc2 Hiso x _ Hx Hanc) in Hm. split; [|done].
        rewrite (iso_chain σ doc1 doc2 Hiso Hwf x Hx) in Hsub.
        apply list_elem_of_fmap in Hsub as (z & Heq & Hz).
        assert (r = z) as ->; [|done].
        apply (iso_inj _ _ _ Hiso); [done| |done].
        by apply (chain_lt doc1 Hwf x z Hx).
      + intros (x & -> & [Hsub Hm]%Hmem1).
        assert (x < length doc1) as Hx by (by eapply chain_elem_lt).
        rewrite (iso_chain σ doc1 doc2 Hiso Hwf x Hx).
        rewrite (iso_match σ doc1 doc2 Hiso x _ Hx Hanc).
        split; [by apply list_elem_of_fmap_2|done]. }
  eexists. unfold search_sentence_for_pattern. simpl.
  rewrite Hsearch1, Hsearch2. simpl. split; [done|].
  rewrite !foldl_add_fork_matches, !sum_list_map, Hperm. do 2 f_equal.
  apply sum_fmap_ext. intros x Hx%Hrange.
  by rewrite !(iso_follow_branch σ doc1 doc2 Hiso Hwf).
Qed.

Lemma count_matches_label_invariant_witness :
  ∃ n, search_sentence_for_pattern 3 (mkSentence raise_doc 1) raise_pattern = Some n ∧
       search_sentence_for_pattern 3 (mkSentence raise_doc_reordered (reorder 1))
                                   raise_pattern = Some n.
Proof.
  apply (count_matches_label_invariant reorder raise_doc raise_doc_reordered 1
           raise_pattern 3).
  - apply wf_docb_sound. reflexivity.
  - apply tree_isob_sound. reflexivity.
  - simpl. lia.
  - unfold label_pattern, label_spec. simpl.
    repeat first [split | constructor | discriminate].
  - simpl. lia.
Defined.

(** The matcher itself compares whatever attribute a dictionary names: a
    dictionary that names the literal text, which no extracted pattern does,
    tells apart two trees with the same structure and labels. *)
Lemma orth_pattern_reads_text :
  wf_doc raise_doc ∧
  tree_iso id raise_doc (rename_orth (λ _, "word") raise_doc) ∧
  search_sentence_for_pattern 3 (mkSentence raise_doc 1) orth_pattern = Some 1 ∧
  search_sentence_for_pattern 3
    (mkSentence (rename_orth (λ _, "word") raise_doc) (id 1)) orth_pattern = Some 0.
Proof.
  split_and!.
  - apply wf_docb_sound. reflexivity.
  - apply rename_orth_iso.
  - reflexivity.
  - reflexivity.
Qed.

(** ** Lines of a text *)

Section Lines.
Variable sep : ascii.

Lemma str_split_nonempty s : str_split sep s ≠ [].
Proof.
  destruct s as [|c s]; simpl; [done|].
  case_decide; [done|]. by destruct (str_split sep s).
Qed.

Lemma str_join_cons p q rest :
  str_join sep (p :: q :: rest) = p ++ sep :: str_join sep (q :: rest).
Proof. done. Qed.

Lemma str_join_split s : str_join sep (str_split sep s) = s.
Proof.
  induction s as [|c s IH]; [done|]. simpl.
  pose proof (str_split_nonempty s) as Hne.
  destruct (str_split sep s) as [|p ps] eqn:E; [done|].
  case_decide as Hc.
  - rewrite str_join_cons, IH. simpl. by rewrite Hc.
  - destruct ps as [|q ps]; simpl in *; by rewrite IH.
Qed.

Lemma str_split_no_sep s : Forall (λ p, sep ∉ p) (str_split sep s).
Proof.
  induction s as [|c s IH]; simpl.
  - constructor; [apply not_elem_of_nil|constructor].
  - case_decide as Hc.
    + constructor; [apply not_elem_of_nil|done].
    + destruct (str_split sep s) as [|p ps].
      * constructor; [|constructor].
        intros Hin. apply list_elem_of_singleton in Hin. done.
      * apply Forall_cons in IH as [Hp Hps]. constructor; [|done].
        intros [Heq|Hin]%elem_of_cons; [by symmetry in Heq|done].
Qed.

Lemma str_split_line p : sep ∉ p → str_split sep p = [p].
Proof.
  induction p as [|c p IH]; intros Hp; [done|]. simpl.
  rewrite decide_False.
  - rewrite IH; [done|]. intros Hin. apply Hp. by right.
  - intros ->. apply Hp. by left.
Qed.

Lemma str_split_app p s :
  sep ∉ p → str_split sep (p ++ sep :: s) = p :: str_split sep s.
Proof.
  induction p as [|c p IH]; intros Hp; simpl.
  - by rewrite decide_True.
  - rewrite decide_False.
    + rewrite IH; [done|]. intros Hin. apply Hp. by right.
    + intros ->. apply Hp. by left.
Qed.

(** Splitting what was joined gives the lines back. *)
Lemma str_split_join l :
  l ≠ [] → Forall (λ p, sep ∉ p) l → str_split sep (str_join sep l) = l.
Proof.
  induction l as [|p l IH]; intros Hne Hall; [done|].
  apply Forall_cons in Hall as [Hp Hl].
  destruct l as [|q l].
  - simpl. by apply str_split_line.
  - rewrite str_join_cons, str_split_app by done. f_equal. by apply IH.
Qed.

End Lines.

(** ** Closing the title lines *)

Section Titles.
Variable isspace : ascii → bool.

Lemma lstrip_elem c s : c ∈ lstrip isspace s → c ∈ s.
Proof.
  induction s as [|d s IH]; simpl; [done|].
  destruct (isspace d); [|done]. intros Hin. right. by apply IH.
Qed.

Lemma strip_elem c s : c ∈ strip isspace s → c ∈ s.
Proof.
  unfold strip, rstrip. rewrite elem_of_reverse.
  intros Hin%lstrip_elem. rewrite elem_of_reverse in Hin. by apply lstrip_elem.
Qed.

Lemma title_line_no_newline p : newline ∉ p → newline ∉ title_line isspace p.
Proof.
  unfold title_line. case_bool_decide; [|done].
  intros Hp [Hin%strip_elem|Hin]%elem_of_app; [done|].
  by apply list_elem_of_singleton in Hin.
Qed.

Lemma title_line_closed p :
  p ≠ [] → endswith (title_line isspace p) full_stop = true.
Proof.
  intros Hp. unfold title_line, endswith.
  rewrite (bool_decide_eq_true_2 (p ≠ [])) by done.
  apply bool_decide_eq_true_2. by rewrite last_snoc.
Qed.

(** The loop, started at index [i] with enough fuel, leaves the lines
    before [i] alone and closes the titles from [i] on. *)
Lemma titles_loop_spec fuel i paragraphs :
  length paragraphs - i ≤ fuel →
  titles_loop isspace fuel i paragraphs =
    Some (take i paragraphs ++ close_titles isspace (drop i paragraphs)).
Proof.
  revert i paragraphs. induction fuel as [|fuel IH]; intros i ps Hfuel.
  - simpl. destruct (ps !! i) as [p|] eqn:Hp.
    + apply lookup_lt_Some in Hp as Hlt.
      rewrite (drop_S _ _ _ Hp). simpl.
      destruct (endswith p full_stop); [|lia].
      by rewrite <-(drop_S _ _ _ Hp), take_drop.
    + apply lookup_ge_None in Hp.
      by rewrite drop_ge, take_ge, app_nil_r by lia.
  - simpl. destruct (ps !! i) as [p|] eqn:Hp.
    + apply lookup_lt_Some in Hp as Hlt.
      rewrite (drop_S _ _ _ Hp). simpl.
      destruct (endswith p full_stop) eqn:Hend.
      { by rewrite <-(drop_S _ _ _ Hp), take_drop. }
      assert ((if bool_decide (p ≠ [])
               then <[i:=strip isspace p ++ [full_stop]]> ps else ps)
              = <[i:=title_line isspace p]> ps) as ->.
      { unfold title_line. case_bool_decide; [done|].
        by rewrite list_insert_id. }
      rewrite IH by (rewrite length_insert; lia).
      rewrite (take_S_r _ _ (title_line isspace p))
        by (by apply list_lookup_insert_eq).
      rewrite take_insert_ge, drop_insert_lt by lia.
      by rewrite <-app_assoc.
    + apply lookup_ge_None in Hp.
      by rewrite drop_ge, take_ge, app_nil_r by lia.
Qed.

Lemma turn_titles_into_sentences_spec raw_text :
  turn_titles_into_sentences isspace raw_text =
    Some (str_join newline (close_titles isspace (str_split newline raw_text))).
Proof.
  unfold turn_titles_into_sentences.
  rewrite titles_loop_spec by lia. simpl. by rewrite drop_0.
Qed.

Lemma close_titles_length ps : length (close_titles isspace ps) = length ps.
Proof.
  induction ps as [|p ps IH]; [done|]. simpl.
  destruct (endswith p full_stop); simpl; [done|]. by rewrite IH.
Qed.

Lemma close_titles_no_newline ps :
  Forall (λ p, newline ∉ p) ps → Forall (λ p, newline ∉ p) (close_titles isspace ps).
Proof.
  induction 1 as [|p ps Hp Hps IH]; [constructor|]. simpl.
  destruct (endswith p full_stop); constructor; try done.
  by apply title_line_no_newline.
Qed.

Lemma close_titles_idemp ps :
  close_titles isspace (close_titles isspace ps) = close_titles isspace ps.
Proof.
  induction ps as [|p ps IH]; [done|]. simpl.
  destruct (endswith p full_stop) eqn:Hend; simpl.
  - by rewrite Hend.
  - destruct (decide (p = [])) as [->|Hp].
    + assert (title_line isspace [] = []) as Hnil.
      { unfold title_line. by rewrite bool_decide_eq_false_2 by (by intros ?). }
      rewrite Hnil. cbn [close_titles]. by rewrite Hend, Hnil, IH.
    + by rewrite (title_line_closed p Hp).
Qed.

Lemma close_titles_lookup ps k p :
  ps !! k = Some p →
  close_titles isspace ps !! k =
    Some (if bool_decide (Forall (λ q, endswith q full_stop = false) (take (S k) ps))
          then title_line isspace p else p).
Proof.
  revert k. induction ps as [|q ps IH]; intros k Hk; [done|]. simpl.
  destruct (endswith q full_stop) eqn:Hend.
  - rewrite Hk. f_equal. rewrite bool_decide_eq_false_2; [done|].
    simpl. intros [Hq _]%Forall_cons. congruence.
  - destruct k as [|k]; simpl in *.
    + injection Hk as ->. rewrite bool_decide_eq_true_2; [done|].
      rewrite take_0. by repeat constructor.
    + rewrite (IH k Hk). f_equal.
      rewrite (bool_decide_ext _ (Forall (λ q, endswith q full_stop = false)
                                         (q :: take (S k) ps))); [done|].
      rewrite Forall_cons. tauto.
Qed.

End Titles.

(** ** Further properties of [turn_titles_into_sentences] *)

(** X1: [turn_titles_into_sentences] returns for every text and keeps the
    number of lines; a line is rewritten (stripped and closed with a full
    stop, an empty line left empty) exactly when neither it nor any line
    before it ends with a full stop, and every other line is unchanged. *)
Theorem turn_titles_closes_titles (isspace : ascii → bool) (raw_text : text) :
  ∃ out,
    turn_titles_into_sentences isspace raw_text = Some out ∧
    length (str_split newline out) = length (str_split newline raw_text) ∧
    ∀ k p,
      str_split newline raw_text !! k = Some p →
      str_split newline out !! k =
        Some (if bool_decide (Forall (λ q, endswith q full_stop = false)
                                     (take (S k) (str_split newline raw_text)))
              then (if bool_decide (p ≠ []) then strip isspace p ++ [full_stop] else p)
              else p).
Proof.
  eexists. split; [apply turn_titles_into_sentences_spec|].
  assert (str_split newline
            (str_join newline (close_titles isspace (str_split newline raw_text)))
          = close_titles isspace (str_split newline raw_text)) as ->.
  { apply str_split_join.
    - intros Hnil. apply (f_equal length) in Hnil.
      rewrite close_titles_length in Hnil.
      by apply (str_split_nonempty newline raw_text), nil_length_inv.
    - apply close_titles_no_newline, str_split_no_sep. }
  split; [apply close_titles_length|].
  intros k p Hk. exact (close_titles_lookup isspace _ k p Hk).
Qed.

(** X2: a text whose first line ends with a full stop is returned as it
    is. *)
Theorem turn_titles_sentence_first (isspace : ascii → bool) (raw_text first : text) :
  str_split newline raw_text !! 0 = Some first →
  endswith first full_stop = true →
  turn_titles_into_sentences isspace raw_text = Some raw_text.
Proof.
  intros Hhead Hend. rewrite turn_titles_into_sentences_spec.
  destruct (str_split newline raw_text) as [|p ps] eqn:E; [done|].
  injection Hhead as ->. simpl close_titles. rewrite Hend.
  by rewrite <-E, str_join_split.
Qed.

Lemma turn_titles_sentence_first_witness :
  turn_titles_into_sentences ascii_isspace
    (text_of "Balderton raised funds." ++ newline
       :: text_of "More soon")
  = Some (text_of "Balderton raised funds." ++ newline
            :: text_of "More soon").
Proof.
  apply (turn_titles_sentence_first ascii_isspace _
           (text_of "Balderton raised funds.")).
  - reflexivity.
  - reflexivity.
Defined.

(** X3: [turn_titles_into_sentences] is idempotent: its result is returned
    unchanged when it is processed again. *)
Theorem turn_titles_idempotent (isspace : ascii → bool) (raw_text : text) :
  ∃ out,
    turn_titles_into_sentences isspace raw_text = Some out ∧
    turn_titles_into_sentences isspace out = Some out.
Proof.
  eexists. split; [apply turn_titles_into_sentences_spec|].
  rewrite turn_titles_into_sentences_spec. f_equal.
  rewrite str_split_join.
  - by rewrite close_titles_idemp.
  - intros Hnil. apply (f_equal length) in Hnil.
    rewrite close_titles_length in Hnil.
    by apply (str_split_nonempty newline raw_text), nil_length_inv.
  - apply close_titles_no_newline, str_split_no_sep.
Qed.

(** ** Further properties of the corpus driver *)

Lemma concat_lines_join (names : list text) :
  names ≠ [] →
  concat (map (λ n, n ++ [newline]) names) = str_join newline names ++ [newline].
Proof.
  induction names as [|n names IH]; intros Hne; [done|].
  destruct names as [|m names]; simpl in *.
  - by rewrite app_nil_r.
  - rewrite IH by done. by rewrite <-!app_assoc.
Qed.

(** X4: the list of file names read from the output of the shell command is
    never empty: an empty output gives one empty name.  An output of one or
    more names, each closed by a newline, gives back exactly those names. *)
Theorem filenames_of_stdout_lines :
  (∀ stdout, filenames_of_stdout stdout ≠ []) ∧
  filenames_of_stdout [] = [[]] ∧
  (∀ names, names ≠ [] → Forall (λ n, newline ∉ n) names →
            filenames_of_stdout (concat (map (λ n, n ++ [newline]) names)) = names).
Proof.
  split_and!.
  - intros stdout. apply str_split_nonempty.
  - reflexivity.
  - intros names Hne Hall. unfold filenames_of_stdout.
    rewrite concat_lines_join by done.
    rewrite take_app_length' by (rewrite length_app; simpl; lia).
    by apply str_split_join.
Qed.

Lemma filenames_of_stdout_lines_witness :
  filenames_of_stdout
    (concat (map (λ n, n ++ [newline])
                 [text_of "./full_text/a.txt";
                  text_of "./full_text/b.txt"]))
  = [text_of "./full_text/a.txt";
     text_of "./full_text/b.txt"].
Proof.
  apply (proj2 (proj2 filenames_of_stdout_lines)).
  - discriminate.
  - repeat constructor; vm_compute;
      intros Hin; repeat (apply elem_of_cons in Hin as [Hin|Hin]; [discriminate|]);
      by apply elem_of_nil in Hin.
Defined.

(** ** Further properties of relationships *)

(** A relationship that was built splits both chains at the fork. *)
Lemma init_inr_split (doc : Doc) (a b : Token) r :
  Relationship.init doc a b = inr r →
  ∃ l1 l2 s f,
    chain doc a = l1 ++ f :: s ∧ chain doc b = l2 ++ f :: s ∧
    (∀ y, y ∈ l1 → y ∉ chain doc b) ∧ (f ∉ l2) ∧
    r = Relationship.mk a b (reverse (f :: s)) (reverse l1) (reverse l2).
Proof.
  intros Hinit.
  destruct (decide (Exists (λ x, x ∈ chain doc b) (chain doc a)))
    as [(x & Hxa & Hxb)%Exists_exists|Hnone].
  - destruct (shared_split _ _ _ Hxa Hxb)
      as (l1 & l2 & s1 & s2 & f & E1 & E2 & Hfirst & Hf).
    unfold Relationship.init, Relationship.find_relationship in Hinit.
    simpl in Hinit.
    change (a :: ancestors doc a) with (chain doc a) in Hinit.
    change (b :: ancestors doc b) with (chain doc b) in Hinit.
    rewrite (fork_chains_split _ _ _ _ _ _ _ E1 E2 Hfirst Hf) in Hinit.
    case_decide as Hneq; [done|].
    injection Hneq as <-.
    injection Hinit as <-. by exists l1, l2, s1, f.
  - assert (Relationship.init doc a b = inl ValueError_unrelated) as Hu.
    { apply init_exn, fork_chains_unrelated. intros x Hxa Hxb.
      apply Hnone, Exists_exists. eauto. }
    congruence.
Qed.

(** X5: a relationship that was built keeps both chains: the chain of each
    token is its branch read upwards, followed by the common ancestors read
    upwards; the relationship also records the two tokens. *)
Theorem relationship_chains (doc : Doc) (a b : Token) (r : Relationship.t) :
  Relationship.init doc a b = inr r →
  Relationship.token1 r = a ∧ Relationship.token2 r = b ∧
  chain doc a = reverse (Relationship.branch1 r)
                ++ reverse (Relationship.common_ancestors r) ∧
  chain doc b = reverse (Relationship.branch2 r)
                ++ reverse (Relationship.common_ancestors r).
Proof.
  intros (l1 & l2 & s & f & E1 & E2 & _ & _ & ->)%init_inr_split. simpl.
  by rewrite !reverse_involutive.
Qed.

Lemma relationship_chains_witness :
  Relationship.token1 raise_relationship = 0 ∧
  Relationship.token2 raise_relationship = 2 ∧
  chain raise_doc 0 = reverse (Relationship.branch1 raise_relationship)
                      ++ reverse (Relationship.common_ancestors raise_relationship) ∧
  chain raise_doc 2 = reverse (Relationship.branch2 raise_relationship)
                      ++ reverse (Relationship.common_ancestors raise_relationship).
Proof. apply (relationship_chains raise_doc 0 2). reflexivity. Defined.

(** X6: in a relationship that was built, [branch1] is empty exactly when
    the first token lies on the chain of the second, and [branch2] exactly
    when the second token is the fork; a branch that is not empty ends with
    its own token. *)
Theorem branch_ends (doc : Doc) (a b : Token) (r : Relationship.t) :
  Relationship.init doc a b = inr r →
  (Relationship.branch1 r = [] ↔ a ∈ chain doc b) ∧
  (Relationship.branch2 r = [] ↔ Relationship.forking_node r = Some b) ∧
  (Relationship.branch1 r ≠ [] → last (Relationship.branch1 r) = Some a) ∧
  (Relationship.branch2 r ≠ [] → last (Relationship.branch2 r) = Some b).
Proof.
  intros (l1 & l2 & s & f & E1 & E2 & Hfirst & Hf & ->)%init_inr_split.
  unfold Relationship.forking_node. simpl.
  rewrite reverse_cons, last_snoc.
  assert (∀ l : list Token, reverse l = [] ↔ l = []) as Hrev.
  { intros l. split; [|by intros ->].
    intros H. apply (f_equal reverse) in H. by rewrite reverse_involutive in H. }
  rewrite !Hrev. unfold chain in E1, E2. split_and!.
  - split.
    + intros ->. simpl in E1. injection E1 as -> _.
      unfold chain. rewrite E2. apply elem_of_app. right. by left.
    + intros Hab. destruct l1 as [|y l1]; [done|].
      simpl in E1. injection E1 as <- _. exfalso.
      apply (Hfirst a); [by left|done].
  - split.
    + intros ->. simpl in E2. by injection E2 as -> _.
    + intros [= ->]. destruct l2 as [|y l2]; [done|].
      simpl in E2. injection E2 as <- _. exfalso. apply Hf. by left.
  - intros Hne. destruct l1 as [|y l1]; [done|].
    simpl in E1. injection E1 as <- _. by rewrite reverse_cons, last_snoc.
  - intros Hne. destruct l2 as [|y l2]; [done|].
    simpl in E2. injection E2 as <- _. by rewrite reverse_cons, last_snoc.
Qed.

Lemma branch_ends_witness :
  (Relationship.branch1 raise_relationship = [] ↔ 0 ∈ chain raise_doc 2) ∧
  (Relationship.branch2 raise_relationship = [] ↔
     Relationship.forking_node raise_relationship = Some 2) ∧
  (Relationship.branch1 raise_relationship ≠ [] →
     last (Relationship.branch1 raise_relationship) = Some 0) ∧
  (Relationship.branch2 raise_relationship ≠ [] →
     last (Relationship.branch2 raise_relationship) = Some 2).
Proof. apply (branch_ends raise_doc 0 2). reflexivity. Defined.

(** In a well-formed document the common part is the chain of the fork. *)
Lemma init_inr_wf (doc : Doc) (a b : Token) r :
  wf_doc doc → a < length doc → b < length doc →
  Relationship.init doc a b = inr r →
  ∃ l1 l2 f,
    chain doc a = l1 ++ chain doc f ∧ chain doc b = l2 ++ chain doc f ∧
    (∀ y, y ∈ l2 → y ∉ chain doc a) ∧
    r = Relationship.mk a b (reverse (chain doc f)) (reverse l1) (reverse l2).
Proof.
  intros Hwf Ha Hb Hinit.
  pose proof Hinit as (l1 & l2 & s & f & E1 & E2 & _ & _ & Hr)%init_inr_split.
  assert (f ∈ chain doc a) as Hfa.
  { rewrite E1. apply elem_of_app. right. by left. }
  assert (f ∈ chain doc b) as Hfb.
  { rewrite E2. apply elem_of_app. right. by left. }
  destruct (find_relationship_wf doc Hwf a b f Ha Hb Hfa Hfb)
    as (l1' & l2' & f' & E1' & E2' & _ & Hfirst' & Hab & _).
  exists l1', l2', f'. split_and!; [done..|].
  unfold Relationship.init in Hinit. rewrite Hab in Hinit. by injection Hinit as <-.
Qed.

(** X7: in a well-formed document both branches of a relationship are
    connected paths that go down from the fork, child by child, and they
    satisfy the specs taken from their own tokens. *)
Theorem branches_descend (doc : Doc) (a b : Token) (r : Relationship.t) :
  wf_doc doc → a < length doc → b < length doc →
  Relationship.init doc a b = inr r →
  ∃ f, Relationship.forking_node r = Some f ∧
       descent_path doc f (map (branch_spec doc) (Relationship.branch1 r))
                    (Relationship.branch1 r) ∧
       descent_path doc f (map (branch_spec doc) (Relationship.branch2 r))
                    (Relationship.branch2 r).
Proof.
  intros Hwf Ha Hb (l1 & l2 & f & E1 & E2 & _ & ->)%init_inr_wf; [|done..].
  exists f. unfold Relationship.forking_node. simpl. split_and!.
  - unfold chain. by rewrite reverse_cons, last_snoc.
  - by apply (chain_descent_path doc a).
  - by apply (chain_descent_path doc b).
Qed.

Lemma branches_descend_witness :
  ∃ f, Relationship.forking_node raise_relationship = Some f ∧
       descent_path raise_doc f
         (map (branch_spec raise_doc) (Relationship.branch1 raise_relationship))
         (Relationship.branch1 raise_relationship) ∧
       descent_path raise_doc f
         (map (branch_spec raise_doc) (Relationship.branch2 raise_relationship))
         (Relationship.branch2 raise_relationship).
Proof.
  apply (branches_descend raise_doc 0 2).
  - apply wf_docb_sound. reflexivity.
  - simpl. lia.
  - simpl. lia.
  - reflexivity.
Defined.

(** X8: in a well-formed document a relationship lists no token twice: the
    two branches and the common ancestors are duplicate-free and pairwise
    disjoint; and the common ancestors start at the root of the tree. *)
Theorem relationship_no_duplicates (doc : Doc) (a b : Token) (r : Relationship.t) :
  wf_doc doc → a < length doc → b < length doc →
  Relationship.init doc a b = inr r →
  NoDup (Relationship.branch1 r ++ Relationship.branch2 r
         ++ Relationship.common_ancestors r) ∧
  Relationship.common_ancestors r !! 0 = root_of doc a.
Proof.
  intros Hwf Ha Hb (l1 & l2 & f & E1 & E2 & Hfirst & ->)%init_inr_wf; [|done..].
  simpl. pose proof (chain_NoDup doc Hwf a Ha) as Hnda.
  pose proof (chain_NoDup doc Hwf b Hb) as Hndb.
  rewrite E1 in Hnda. rewrite E2 in Hndb.
  apply NoDup_app in Hnda as (Hnd1 & Hd1 & Hndf).
  apply NoDup_app in Hndb as (Hnd2 & Hd2 & _).
  split.
  - rewrite !reverse_Permutation. apply NoDup_app. split_and!; [done| |].
    + intros x Hx1 [Hx2|Hxf]%elem_of_app.
      * apply (Hfirst x Hx2). rewrite E1. apply elem_of_app. by left.
      * by apply (Hd1 x).
    + apply NoDup_app. split_and!; [done| |done].
      intros x Hx2 Hxf. by apply (Hd2 x).
  - unfold root_of. rewrite E1, last_app.
    assert (∀ l : list Token, reverse l !! 0 = last l) as Hrev.
    { intros l. induction l as [|x l IH] using rev_ind; [done|].
      by rewrite reverse_snoc, last_snoc. }
    rewrite Hrev. destruct (last (chain doc f)) eqn:E; [done|].
    by apply last_None in E.
Qed.

Lemma relationship_no_duplicates_witness :
  NoDup (Relationship.branch1 raise_relationship
         ++ Relationship.branch2 raise_relationship
         ++ Relationship.common_ancestors raise_relationship) ∧
  Relationship.common_ancestors raise_relationship !! 0 = root_of raise_doc 0.
Proof.
  apply (relationship_no_duplicates raise_doc 0 2).
  - apply wf_docb_sound. reflexivity.
  - simpl. lia.
  - simpl. lia.
  - reflexivity.
Defined.

(** X9: extracting the pattern of a relationship that was built never
    fails; the pattern names only [pos], [lemma] and [dep], its
    common-ancestor spec is matched by the fork itself, and it has one
    [branch1] spec for each token of [branch1]. *)
Theorem matching_pattern_of_relationship (doc : Doc) (a b : Token) (r : Relationship.t) :
  Relationship.init doc a b = inr r →
  ∃ f pat,
    Relationship.forking_node r = Some f ∧
    Relationship.matching_pattern doc r = Some pat ∧
    label_pattern pat ∧
    match_node_pattern doc f (common_ancestor pat) = true ∧
    length (branch1 pat) = length (Relationship.branch1 r).
Proof.
  intros (l1 & l2 & s & f & _ & _ & _ & _ & ->)%init_inr_split.
  assert (Relationship.forking_node
            (Relationship.mk a b (reverse (f :: s)) (reverse l1) (reverse l2))
          = Some f) as Hfork.
  { unfold Relationship.forking_node. simpl. by rewrite reverse_cons, last_snoc. }
  eexists f, _. split; [done|].
  rewrite (matching_pattern_fields doc _ f Hfork). split; [done|]. simpl.
  assert (Forall label_spec (map (branch_spec doc) (reverse l1))) as Hlabel.
  { apply Forall_forall. intros spec (x & -> & _)%list_elem_of_fmap.
    unfold label_spec, branch_spec. by repeat constructor. }
  split_and!.
  - unfold label_pattern, label_spec, fork_spec. simpl.
    split_and!; [by repeat constructor|done|done].
  - apply match_fork_spec.
  - by rewrite length_map.
Qed.

Lemma matching_pattern_of_relationship_witness :
  ∃ f pat,
    Relationship.forking_node raise_relationship = Some f ∧
    Relationship.matching_pattern raise_doc raise_relationship = Some pat ∧
    label_pattern pat ∧
    match_node_pattern raise_doc f (common_ancestor pat) = true ∧
    length (branch1 pat) = length (Relationship.branch1 raise_relationship).
Proof. apply (matching_pattern_of_relationship raise_doc 0 2). reflexivity. Defined.

(** X10: [longer_branch] and [shorter_branch] return the two branches, one
    each; the shorter one is never longer than the longer one, and on
    branches of equal length the longer is [branch1] and the shorter
    [branch2]. *)
Theorem longer_shorter_branch (self : Relationship.t) :
  length (Relationship.shorter_branch self) ≤ length (Relationship.longer_branch self) ∧
  ((Relationship.longer_branch self = Relationship.branch1 self ∧
    Relationship.shorter_branch self = Relationship.branch2 self) ∨
   (Relationship.longer_branch self = Relationship.branch2 self ∧
    Relationship.shorter_branch self = Relationship.branch1 self)) ∧
  (length (Relationship.branch1 self) = length (Relationship.branch2 self) →
   Relationship.longer_branch self = Relationship.branch1 self ∧
   Relationship.shorter_branch self = Relationship.branch2 self).
Proof.
  unfold Relationship.longer_branch, Relationship.shorter_branch.
  case_decide; split_and!; try lia; auto.
Qed.

(** ** Further properties of the corpus driver: relationships *)

Lemma product_length {A B} (l : list A) (k : list B) :
  length (product l k) = length l * length k.
Proof.
  unfold product. induction l as [|a l IH]; [done|]. csimpl.
  rewrite length_app, IH.
  assert (length (k ≫= λ b, [(a, b)]) = length k) as ->; [|done].
  clear IH. induction k as [|b k IHk]; [done|]. csimpl. by rewrite IHk.
Qed.

Lemma elem_of_product {A B} (l : list A) (k : list B) a b :
  (a, b) ∈ product l k ↔ a ∈ l ∧ b ∈ k.
Proof.
  unfold product. rewrite list_elem_of_bind. split.
  - intros (a' & (b' & Hin & Hb)%list_elem_of_bind & Ha).
    apply list_elem_of_singleton in Hin. by injection Hin as -> ->.
  - intros [Ha Hb]. exists a. split; [|done].
    apply list_elem_of_bind. exists b. split; [|done]. by left.
Qed.

(** The comprehension returns the relationships of all the pairs, in their
    order, when every constructor returns. *)
Lemma relationships_of_pairs_inr sentence pairs rels :
  relationships_of_pairs sentence pairs = inr rels ↔
  Forall2 (λ pair rs, Relationship.init (sent_doc sentence) pair.1 pair.2 = inr rs.1
                      ∧ rs.2 = sentence) pairs rels.
Proof.
  revert rels. induction pairs as [|[a b] pairs IH]; intros rels; simpl.
  - split; [by intros [= <-]; constructor|]. by inversion 1.
  - destruct (Relationship.init (sent_doc sentence) a b) as [e|r] eqn:Hinit.
    + split; [done|]. inversion 1 as [|? ? ? ? [Hr _]]; subst. simpl in Hr. congruence.
    + destruct (relationships_of_pairs sentence pairs) as [e|rs] eqn:Hrest.
      * split; [done|]. inversion 1 as [|? ? ? ? _ Htail]; subst.
        apply IH in Htail. congruence.
      * split.
        -- intros [= <-]. constructor; [done|]. by apply IH.
        -- inversion 1 as [|? [r' s'] ? ? [Hr Hs] Htail]; subst. simpl in *.
           apply IH in Htail. congruence.
Qed.

Lemma relationships_of_pairs_inl sentence pairs a b :
  (a, b) ∈ pairs →
  (∃ e, Relationship.init (sent_doc sentence) a b = inl e) →
  ∃ e, relationships_of_pairs sentence pairs = inl e.
Proof.
  intros Hin [e He]. induction pairs as [|[a' b'] pairs IH]; [by apply elem_of_nil in Hin|].
  simpl. destruct (Relationship.init (sent_doc sentence) a' b') as [e'|r] eqn:Hinit;
    [by eexists|].
  apply elem_of_cons in Hin as [[= <- <-]|Hin]; [congruence|].
  destruct (IH Hin) as [e'' ->]. by eexists.
Qed.

(** X11: in a well-formed document, for instances of the two entities that
    all belong to the sentence (they reach its root), no constructor
    raises: the driver gets one relationship for every pair of an instance
    of the first and an instance of the second entity, in the order of the
    product, each with the sentence. *)
Theorem sentence_relationships_complete (sentence : Sentence)
    (entity1_instances entity2_instances : list Token) :
  wf_doc (sent_doc sentence) →
  Forall (λ t, t < length (sent_doc sentence)
               ∧ root_of (sent_doc sentence) t = Some (root sentence)) entity1_instances →
  Forall (λ t, t < length (sent_doc sentence)
               ∧ root_of (sent_doc sentence) t = Some (root sentence)) entity2_instances →
  ∃ rels,
    sentence_relationships sentence entity1_instances entity2_instances = inr rels ∧
    length rels = length entity1_instances * length entity2_instances ∧
    Forall2 (λ pair rs, Relationship.token1 rs.1 = pair.1
                        ∧ Relationship.token2 rs.1 = pair.2 ∧ rs.2 = sentence)
            (product entity1_instances entity2_instances) rels.
Proof.
  intros Hwf H1 H2. unfold sentence_relationships.
  rewrite Forall_forall in H1, H2.
  assert (∀ pair, pair ∈ product entity1_instances entity2_instances →
            ∃ r, Relationship.init (sent_doc sentence) pair.1 pair.2 = inr r)
    as Hall.
  { intros [a b] [Ha Hb]%elem_of_product. simpl.
    destruct (H1 a Ha) as [Halt Haroot], (H2 b Hb) as [Hblt Hbroot].
    destruct (same_tree_shared (sent_doc sentence) a b) as (x & Hxa & Hxb).
    { unfold same_tree. congruence. }
    destruct (find_relationship_wf _ Hwf a b x Halt Hblt Hxa Hxb)
      as (l1 & l2 & f & _ & _ & _ & _ & Hab & _).
    eexists. unfold Relationship.init. by rewrite Hab. }
  assert (∃ rels, relationships_of_pairs sentence
                    (product entity1_instances entity2_instances) = inr rels)
    as [rels Hrels].
  { induction (product entity1_instances entity2_instances) as [|[a b] pairs IH];
      [by eexists|].
    simpl. destruct (Hall (a, b)) as [r Hr]; [by left|]. simpl in Hr. rewrite Hr.
    destruct IH as [rs ->]; [|by eexists].
    intros pair Hpair. apply Hall. by right. }
  exists rels. split; [done|].
  apply relationships_of_pairs_inr in Hrels.
  split.
  - by rewrite <-(Forall2_length _ _ _ Hrels), product_length.
  - eapply Forall2_impl; [done|]. intros [a b] [r s] [Hinit ->]. simpl in *.
    apply init_inr_split in Hinit as (l1 & l2 & s' & f & _ & _ & _ & _ & ->). done.
Qed.

Lemma sentence_relationships_complete_witness :
  ∃ rels,
    sentence_relationships (mkSentence raise_doc 1) [0; 2] [2; 1] = inr rels ∧
    length rels = length [0; 2] * length [2; 1] ∧
    Forall2 (λ pair rs, Relationship.token1 rs.1 = pair.1
                        ∧ Relationship.token2 rs.1 = pair.2
                        ∧ rs.2 = mkSentence raise_doc 1)
            (product [0; 2] [2; 1]) rels.
Proof.
  apply (sentence_relationships_complete (mkSentence raise_doc 1) [0; 2] [2; 1]).
  - apply wf_docb_sound. reflexivity.
  - repeat constructor; simpl; lia.
  - repeat constructor; simpl; lia.
Defined.

(** X12: when one pair of instances has no token common to its two chains,
    the comprehension raises and the driver gets no relationship of the
    sentence at all, not even those of the pairs before it. *)
Theorem sentence_relationships_aborts (sentence : Sentence)
    (entity1_instances entity2_instances : list Token) (a b : Token) :
  a ∈ entity1_instances → b ∈ entity2_instances →
  (∀ x, x ∈ chain (sent_doc sentence) a → x ∉ chain (sent_doc sentence) b) →
  ∃ e, sentence_relationships sentence entity1_instances entity2_instances = inl e.
Proof.
  intros Ha Hb Hno. unfold sentence_relationships.
  apply (relationships_of_pairs_inl sentence _ a b).
  - by apply elem_of_product.
  - exists ValueError_unrelated. by apply init_exn, fork_chains_unrelated.
Qed.

Lemma sentence_relationships_aborts_witness :
  ∃ e, sentence_relationships (mkSentence two_sentence_doc 1) [0; 3] [2] = inl e.
Proof.
  apply (sentence_relationships_aborts (mkSentence two_sentence_doc 1) [0; 3] [2] 3 2).
  - right. by left.
  - by left.
  - intros x Hx Hx'. vm_compute in Hx, Hx'.
    repeat (apply elem_of_cons in Hx as [->|Hx]);
      [..|by apply elem_of_nil in Hx];
      repeat (apply elem_of_cons in Hx' as [Hx'|Hx']); try lia;
      by apply elem_of_nil in Hx'.
Defined.

Lemma matching_patterns_inr relationships :
  Forall (λ rs, ∃ a b, Relationship.init (sent_doc rs.2) a b = inr rs.1) relationships →
  ∃ patterns,
    matching_patterns relationships = inr patterns ∧
    Forall2 (λ rs pat, Relationship.matching_pattern (sent_doc rs.2) rs.1 = Some pat)
            relationships patterns.
Proof.
  induction 1 as [|[r s] rels (a & b & Hinit) Hrels IH]; [by eexists|].
  simpl in *. destruct IH as (pats & -> & HF).
  apply init_inr_split in Hinit as (l1 & l2 & s' & f & _ & _ & _ & _ & ->).
  assert (Relationship.forking_node
            (Relationship.mk a b (reverse (f :: s')) (reverse l1) (reverse l2))
          = Some f) as Hfork.
  { unfold Relationship.forking_node. simpl. by rewrite reverse_cons, last_snoc. }
  rewrite (matching_pattern_fields _ _ f Hfork).
  eexists. split; [done|]. constructor; [|done]. simpl.
  by rewrite (matching_pattern_fields _ _ f Hfork).
Qed.

(** X13: given relationships that were built by the constructor,
    [write_matching_patterns_to_file] raises [IndexError] when the list is
    empty, before any file is opened; otherwise it writes one pattern for
    each relationship, in order, the pattern of that relationship. *)
Theorem write_matching_patterns_to_file_result
    (relationships : list (Relationship.t * Sentence)) :
  Forall (λ rs, ∃ a b, Relationship.init (sent_doc rs.2) a b = inr rs.1) relationships →
  (relationships = [] → write_matching_patterns_to_file relationships = inl IndexError) ∧
  (relationships ≠ [] →
   ∃ filename patterns,
     write_matching_patterns_to_file relationships = inr (filename, patterns) ∧
     Forall2 (λ rs pat, Relationship.matching_pattern (sent_doc rs.2) rs.1 = Some pat)
             relationships patterns).
Proof.
  intros Hbuilt. split; [by intros ->|].
  intros Hne. destruct (matching_patterns_inr relationships Hbuilt) as (pats & Hpats & HF).
  unfold write_matching_patterns_to_file. rewrite Hpats.
  destruct relationships as [|first rest]; [done|]. simpl. by eexists _, _.
Qed.

Lemma write_matching_patterns_to_file_result_witness :
  ∃ filename patterns,
    write_matching_patterns_to_file [(raise_relationship, mkSentence raise_doc 1)]
      = inr (filename, patterns) ∧
    Forall2 (λ rs pat, Relationship.matching_pattern (sent_doc rs.2) rs.1 = Some pat)
            [(raise_relationship, mkSentence raise_doc 1)] patterns.
Proof.
  apply (proj2 (write_matching_patterns_to_file_result
                  [(raise_relationship, mkSentence raise_doc 1)]
                  ltac:(repeat constructor; by exists 0, 2))).
  discriminate.
Defined.

(** ** Further properties of the matcher *)

(** X14: with two empty branch lists every fork found counts once: the
    count is the number of tokens found by the search for the
    common-ancestor spec (and the search for the pattern returns exactly
    when that search does).  With an empty common-ancestor dictionary as
    well, on a well-formed tree, it is the number of tokens of the tree
    below the root, the root included. *)
Theorem count_with_empty_branches (fuel : nat) (sentence : Sentence)
    (spec : node_pattern) :
  search_sentence_for_pattern fuel sentence (mkPattern spec [] [])
    = length <$> search_sentence_for_node fuel (sent_doc sentence) (root sentence)
                                          spec ∧
  (wf_doc (sent_doc sentence) →
   root sentence < length (sent_doc sentence) →
   length (sent_doc sentence) ≤ fuel →
   search_sentence_for_pattern fuel sentence (mkPattern [] [] [])
     = Some (length (filter (λ x, root sentence ∈ chain (sent_doc sentence) x)
                            (seq 0 (length (sent_doc sentence)))))).
Proof.
  destruct sentence as [doc r]. simpl.
  assert (∀ anc, search_sentence_for_pattern fuel (mkSentence doc r) (mkPattern anc [] [])
                 = length <$> search_sentence_for_node fuel doc r anc) as Hcount.
  { intros anc. unfold search_sentence_for_pattern. simpl.
    destruct (search_sentence_for_node fuel doc r anc) as [forks|]; [|done].
    simpl. rewrite foldl_add_fork_matches. simpl. f_equal.
    induction forks as [|f forks IH]; [done|]. simpl. by rewrite IH. }
  split; [apply Hcount|].
  intros Hwf Hr Hfuel. rewrite Hcount.
  destruct (search_sentence_for_node_spec doc Hwf fuel r [] Hr)
    as (forks & -> & Hnd & Hmem); [lia|].
  simpl. f_equal. apply Permutation_length, NoDup_Permutation; [done|..].
  - apply NoDup_filter, NoDup_seq.
  - intros x. rewrite Hmem, list_elem_of_filter, elem_of_seq. unfold in_subtree.
    split; [|by intros [? _]].
    intros [Hsub _]. split; [done|]. split; [lia|]. simpl.
    by eapply chain_elem_lt.
Qed.

Lemma count_with_empty_branches_witness :
  search_sentence_for_pattern 5 (mkSentence two_sentence_doc 1) (mkPattern [] [] [])
  = Some 3.
Proof.
  rewrite (proj2 (count_with_empty_branches 5 (mkSentence two_sentence_doc 1) [])).
  - reflexivity.
  - apply wf_docb_sound. reflexivity.
  - simpl. lia.
  - simpl. lia.
Defined.

(** X15: exchanging the two branch lists of a pattern does not change the
    count. *)
Theorem count_branches_exchanged (fuel : nat) (sentence : Sentence)
    (spec : node_pattern) (b1 b2 : list node_pattern) :
  search_sentence_for_pattern fuel sentence (mkPattern spec b1 b2)
  = search_sentence_for_pattern fuel sentence (mkPattern spec b2 b1).
Proof.
  unfold search_sentence_for_pattern. simpl.
  destruct (search_sentence_for_node _ _ _ _) as [forks|]; [|done].
  simpl. rewrite !foldl_add_fork_matches. simpl. do 2 f_equal.
  apply map_ext. intros f. lia.
Qed.

Lemma match_refines doc node spec' spec :
  refines spec' spec →
  match_node_pattern doc node spec' = true → match_node_pattern doc node spec = true.
Proof.
  unfold refines, match_node_pattern. rewrite !forallb_forall.
  intros Hsub Hall item Hin. apply Hall.
  apply list_elem_of_In, Hsub, list_elem_of_In, Hin.
Qed.

Lemma sum_filter_le {A} (P' P : A → Prop)
    `{∀ x, Decision (P' x)} `{∀ x, Decision (P x)} (g' g : A → nat) (l : list A) :
  (∀ x, x ∈ l → P' x → P x) →
  (∀ x, x ∈ l → g' x ≤ g x) →
  sum_list_with g' (filter P' l) ≤ sum_list_with g (filter P l).
Proof.
  induction l as [|x l IH]; intros HP Hg; [done|].
  rewrite !filter_cons.
  assert (sum_list_with g' (filter P' l) ≤ sum_list_with g (filter P l)) as IH'.
  { apply IH; intros y Hy; [apply HP|apply Hg]; by right. }
  assert (g' x ≤ g x) as Hx by (apply Hg; by left).
  destruct (decide (P' x)) as [H'|H'], (decide (P x)) as [Hp|Hp]; simpl; try lia.
  exfalso. apply Hp, HP; [by left|done].
Qed.

Lemma sum_filter_le_all {A} (P' : A → Prop) `{∀ x, Decision (P' x)}
    (g' g : A → nat) (l : list A) :
  (∀ x, x ∈ l → g' x ≤ g x) →
  sum_list_with g' (filter P' l) ≤ sum_list_with g l.
Proof.
  induction l as [|x l IH]; intros Hg; [done|].
  rewrite filter_cons.
  assert (sum_list_with g' (filter P' l) ≤ sum_list_with g l) as IH'.
  { apply IH. intros y Hy. apply Hg. by right. }
  assert (g' x ≤ g x) as Hx by (apply Hg; by left).
  destruct (decide (P' x)); simpl; lia.
Qed.

(** A branch with more items in its specs is followed by fewer paths. *)
Lemma follow_branch_refines doc branch' branch :
  Forall2 refines branch' branch →
  ∀ node, follow_branch doc node branch' ≤ follow_branch doc node branch.
Proof.
  induction 1 as [|s' s rest' rest Hs Hrest IH]; intros node; [done|].
  rewrite !follow_branch_cons, !sum_list_map.
  apply sum_filter_le.
  - intros c _. by apply match_refines.
  - intros c _. apply IH.
Qed.

(** X16: a pattern whose dictionaries have all the items of another
    pattern, and possibly more, never matches more often: on a well-formed
    tree its count is at most the count of the other. *)
Theorem refined_pattern_matches_less (sentence : Sentence) (pat' pat : pattern)
    (fuel : nat) :
  wf_doc (sent_doc sentence) →
  root sentence < length (sent_doc sentence) →
  length (sent_doc sentence) ≤ fuel →
  pattern_refines pat' pat →
  ∃ n' n,
    search_sentence_for_pattern fuel sentence pat' = Some n' ∧
    search_sentence_for_pattern fuel sentence pat = Some n ∧
    n' ≤ n.
Proof.
  destruct sentence as [doc r]. simpl. intros Hwf Hr Hfuel (Hanc & Hb1 & Hb2).
  destruct (search_sentence_for_node_spec doc Hwf fuel r (common_ancestor pat') Hr)
    as (forks' & Hsearch' & Hnd' & Hmem'); [lia|].
  destruct (search_sentence_for_node_spec doc Hwf fuel r (common_ancestor pat) Hr)
    as (forks & Hsearch & Hnd & Hmem); [lia|].
  assert (forks' ≡ₚ filter (λ x, match_node_pattern doc x (common_ancestor pat') = true)
                           forks) as Hperm.
  { apply NoDup_Permutation; [done|by apply NoDup_filter|].
    intros x. rewrite list_elem_of_filter, Hmem', Hmem. split.
    - intros [Hsub Hm]. split_and!; [done..|]. by eapply match_refines.
    - intros [Hm [Hsub _]]. done. }
  eexists _, _. unfold search_sentence_for_pattern. simpl.
  rewrite Hsearch', Hsearch. simpl. split_and!; [done..|].
  rewrite !foldl_add_fork_matches, !sum_list_map, Hperm. simpl.
  apply sum_filter_le_all. intros x _. simpl.
  pose proof (follow_branch_refines doc _ _ Hb1 x).
  pose proof (follow_branch_refines doc _ _ Hb2 x). nia.
Qed.

Lemma refined_pattern_matches_less_witness :
  ∃ n' n,
    search_sentence_for_pattern 4 (mkSentence two_objects_doc 1) raise_pattern = Some n' ∧
    search_sentence_for_pattern 4 (mkSentence two_objects_doc 1) noun_pattern = Some n ∧
    n' ≤ n.
Proof.
  apply (refined_pattern_matches_less (mkSentence two_objects_doc 1)
           raise_pattern noun_pattern 4).
  - apply wf_docb_sound. reflexivity.
  - simpl. lia.
  - simpl. lia.
  - unfold pattern_refines, refines. simpl.
    split_and!; repeat (constructor; [|constructor]);
      intros x Hx; apply list_elem_of_singleton in Hx as ->; by left.
Defined.
